(** * PaperPilot: the stage-orchestration core and the skill installers

    The coordinator of PaperPilot keeps one JSON document per project,
    [.paper_context.json], and moves a pointer [current_stage] through the
    five stages of the workflow.  The code that does so is the Python of
    [paper-assistant/references/integration-guide.md]; the skill installers
    are the Node scripts of [scripts/].  This file embeds that code and
    states the properties of the specification over it. *)

From Stdlib Require Import ZArith Lia.
From stdpp Require Import base option list gmap strings.

Set Warnings "-register-all,-clear-no-such-hyp".
Open Scope string_scope.

(** ** JSON documents

    [json.load] gives nested Python dicts, lists and scalars.  A dict is a
    finite map, so two documents are deep-equal exactly when they are
    equal. *)

Inductive Json : Type :=
| JNull
| JBool (b : bool)
| JNum (n : Z)
| JStr (s : string)
| JArr (xs : list Json)
| JObj (m : gmap string Json).

(** ** Results of fallible code *)

(** The exceptions the Python snippets can raise. *)
Inductive exn : Type :=
| KeyError (k : string)
| TypeError
| ValueError.

(** The result codes of the command surface (section 6 of the design). *)
Inductive code : Type :=
| NotFound
| InvalidTransition
| ValidationFailed
| IOError
| CorruptRecord.

Inductive result (E A : Type) : Type :=
| Ok (a : A)
| Err (e : E).
Arguments Ok {E A} a.
Arguments Err {E A} e.

Definition bind {E A B} (r : result E A) (k : A -> result E B) : result E B :=
  match r with
  | Ok a => k a
  | Err e => Err e
  end.

Notation "'let!' x ':=' r 'in' k" := (bind r (fun x => k))
  (at level 10, x name, r at level 100, k at level 200).

(** A [for] loop whose body may raise: the first exception ends it. *)
Fixpoint for_each {E S X} (body : X -> S -> result E S) (xs : list X) (s : S)
  : result E S :=
  match xs with
  | [] => Ok s
  | x :: xs' => let! s' := body x s in for_each body xs' s'
  end.

(** What the context file holds after a command: a command that raises
    never reaches [save_context], so the file keeps its content. *)
Definition persisted {E} (before : Json) (r : result E Json) : Json :=
  match r with Ok after => after | Err _ => before end.

(** ** Python primitives on documents *)

(** [d[k]] *)
Definition getitem (d : Json) (k : string) : result exn Json :=
  match d with
  | JObj m => match m !! k with Some v => Ok v | None => Err (KeyError k) end
  | _ => Err TypeError
  end.

(** [d[k] = v] *)
Definition setitem (d : Json) (k : string) (v : Json) : result exn Json :=
  match d with
  | JObj m => Ok (JObj (<[k := v]> m))
  | _ => Err TypeError
  end.

(** [l.index(x)] *)
Fixpoint index (x : string) (l : list string) : result exn nat :=
  match l with
  | [] => Err ValueError
  | y :: l' => if decide (x = y) then Ok 0 else let! i := index x l' in Ok (S i)
  end.

(** [context["stages"][stage][field] = value]: two lookups, then an
    assignment into the stage's own dict, which the context shares. *)
Definition set_field (field : string) (value : Json) (stage : string)
    (context : Json) : result exn Json :=
  let! stages := getitem context "stages" in
  let! record := getitem stages stage in
  let! record' := setitem record field value in
  let! stages' := setitem stages stage record' in
  setitem context "stages" stages'.

(** [context["stages"][stage]["status"] = status] *)
Definition set_status (status : string) : string -> Json -> result exn Json :=
  set_field "status" (JStr status).

(** ** The coordinator (integration-guide.md) *)

Definition stages_order : list string :=
  ["literature_review"; "hypothesis"; "code"; "experiment"; "writing"].

(** [rollback_to_stage(target_stage)], between [load_context()] and
    [save_context(context)]. *)
Definition rollback_to_stage (target_stage : string) (context : Json)
  : result exn Json :=
  let! target_idx := index target_stage stages_order in
  let! context := for_each (set_status "pending")
                (drop (S target_idx) stages_order) context in
  let! context := setitem context "current_stage" (JStr target_stage) in
  set_status "in_progress" target_stage context.

(** "Starting from arbitrary stages": the assignments of the context
    initialisation when a user starts mid-workflow, for a stage to start
    from and the skipped stages to mark.  The guide shows them for the
    experiment stage ([start_from_experiment] below); as a command that
    takes the target and the stages from its caller they stand behind the
    guard of [jumpTo]. *)
Definition start_from (target_stage : string) (skipped : list string)
    (context : Json) : result exn Json :=
  let! context := setitem context "current_stage" (JStr target_stage) in
  for_each (set_status "completed") skipped context.

(** The guide's own instance: "user wants to start from experiment". *)
Definition start_from_experiment : Json -> result exn Json :=
  start_from "experiment" ["literature_review"; "hypothesis"; "code"].

(** "Stage failed": the failure is recorded in the stage's dict. *)
Definition record_failure (stage : string) (error : Json) (context : Json)
  : result exn Json :=
  let! context := set_status "failed" stage context in
  set_field "error" error stage context.

(** ** The documented context *)

Definition obj (fields : list (string * Json)) : Json :=
  JObj (list_to_map fields).

(** The [.paper_context.json] shown in the coordinator's SKILL.md. *)
Definition example_context : Json :=
  obj [ ("project_name", JStr "my-paper");
        ("current_stage", JStr "literature_review");
        ("stages", obj
           [ ("literature_review",
                obj [ ("status", JStr "completed");
                      ("research_gap", JStr "...");
                      ("summary", JStr "...") ]);
             ("hypothesis", obj [ ("status", JStr "pending") ]);
             ("code", obj [ ("status", JStr "pending") ]);
             ("experiment", obj [ ("status", JStr "pending") ]);
             ("writing", obj [ ("status", JStr "pending") ]) ]);
        ("user_preferences", obj
           [ ("discipline", JStr "cs");
             ("methodology", JStr "quantitative");
             ("language", JStr "zh");
             ("citation_style", JStr "IEEE") ]) ].

(** The "Validation Criteria" table of the guide: the outputs a stage must
    have before the transition. *)
Definition required_outputs (stage : string) : list string :=
  if decide (stage = "literature_review") then
    ["research_gap"; "key_papers"; "summary"]
  else if decide (stage = "hypothesis") then
    ["hypotheses"; "experiment_designs"; "feasibility"]
  else if decide (stage = "code") then ["repo_url"; "config"]
  else if decide (stage = "experiment") then
    ["results"; "tables"; "figures"; "analysis"]
  else if decide (stage = "writing") then ["sections"]
  else [].

(** ** Views of a context *)

Definition field (k : string) (d : Json) : option Json :=
  match d with JObj m => m !! k | _ => None end.

Definition current_stage (context : Json) : option string :=
  match field "current_stage" context with
  | Some (JStr s) => Some s
  | _ => None
  end.

Definition stages (context : Json) : option (gmap string Json) :=
  match field "stages" context with
  | Some (JObj m) => Some m
  | _ => None
  end.

(** The dict of one stage. *)
Definition stage_record (stage : string) (context : Json)
  : option (gmap string Json) :=
  match stages context with
  | Some m => match m !! stage with Some (JObj r) => Some r | _ => None end
  | None => None
  end.

Definition status (record : gmap string Json) : option string :=
  match record !! "status" with Some (JStr s) => Some s | _ => None end.

(** What a stage has produced: its dict without the bookkeeping keys. *)
Definition output (record : gmap string Json) : gmap string Json :=
  delete "status" (delete "error" record).

Definition stage_status (stage : string) (context : Json) : option string :=
  match stage_record stage context with
  | Some r => status r
  | None => None
  end.

(** ** StageRegistry, StageValidator, advance and init

    [scripts/context_manager.py] and [scripts/state_checker.py], which hold
    [ContextManager.update_stage], the project initialisation and the
    [StageValidator], are not among the sources; the guide only calls them.
    The definitions of this part follow the design document, over the
    context layout of the sources. *)

(** Modelled from the spec: a StageRegistry entry table (section 4.2),
    absent from the sources as a data structure: the ordered stage
    identifiers and, per stage, the required output fields. *)
Record StageRegistry : Type := {
  all_stages : list string;
  requiredFields : string -> list string
}.

(** The registry of the paper workflow, from the sources. *)
Definition paper_registry : StageRegistry :=
  {| all_stages := stages_order; requiredFields := required_outputs |}.

(** The two-stage registry of the design's scenarios. *)
Definition demo_registry : StageRegistry :=
  {| all_stages := ["search"; "draft"];
     requiredFields := fun s =>
       if decide (s = "search") then ["query"]
       else if decide (s = "draft") then ["text"] else [] |}.

(** Modelled from the spec: [StageRegistry.next] (section 4.2), absent
    from the sources: the following stage, [None] at the final one. *)
Definition next (reg : StageRegistry) (stage : string) : option string :=
  match index stage (all_stages reg) with
  | Ok i => all_stages reg !! S i
  | Err _ => None
  end.

(** Modelled from the spec: the [ValidationResult] of section 4.3, absent
    from the sources: whether the output passes, and the fields it
    misses. *)
Record ValidationResult : Type := {
  ok : bool;
  missing : list string
}.

(** Modelled from the spec: the "non-empty value" of section 4.3, absent
    from the sources as code: a value that is not null and not empty. *)
Definition non_empty (v : Json) : bool :=
  match v with
  | JNull => false
  | JStr s => negb (bool_decide (s = ""))
  | JArr xs => negb (bool_decide (length xs = 0))
  | JObj m => negb (bool_decide (size m = 0))
  | JBool _ | JNum _ => true
  end.

(** Modelled from the spec: "contains the required field with a non-empty
    value" (section 4.3), absent from the sources as code. *)
Definition provided (out : gmap string Json) (f : string) : bool :=
  match out !! f with
  | Some v => non_empty v
  | None => false
  end.

(** Modelled from the spec: [StageValidator.validate] (section 4.3); the
    validator of [scripts/state_checker.py] is absent from the sources.  It
    checks that the output has every required field with a non-empty
    value, and reports the fields that fail. *)
Definition validate (reg : StageRegistry) (stage : string)
    (out : gmap string Json) : ValidationResult :=
  let miss := List.filter (fun f => negb (provided out f))
                (requiredFields reg stage) in
  {| ok := bool_decide (miss = []); missing := miss |}.

(** Modelled from the spec: the precondition of [advance] (section 4.4),
    absent from the sources. *)
Definition may_advance (st : string) : bool :=
  bool_decide (st = "pending" \/ st = "in_progress").

(** Modelled from the spec: [advance] (section 4.4); the sources only call
    [manager.update_stage] and the validator.  The current stage must be
    [pending] or [in_progress]; on success the output is written, the
    stage becomes [completed] and the pointer moves to the next stage (it
    stays on the final one); on failure the output and the missing fields
    are written, the stage becomes [failed] and the pointer stays. *)
Definition advance (reg : StageRegistry) (context : Json)
    (out : gmap string Json) : result code (Json * ValidationResult) :=
  match context, current_stage context, stages context with
  | JObj top, Some cur, Some sts =>
      match sts !! cur with
      | Some (JObj record) =>
          match status record with
          | Some st =>
              if may_advance st then
                let r := validate reg cur out in
                if ok r then
                  let record' := <["status" := JStr "completed"]> out in
                  let cur' := default cur (next reg cur) in
                  Ok (JObj (<["current_stage" := JStr cur']>
                              (<["stages" := JObj (<[cur := JObj record']> sts)]>
                                 top)), r)
                else
                  let record' :=
                    <["status" := JStr "failed"]>
                      (<["error" := JArr (JStr <$> missing r)]> out) in
                  Ok (JObj (<["stages" := JObj (<[cur := JObj record']> sts)]>
                              top), r)
              else Err InvalidTransition
          | None => Err CorruptRecord
          end
      | _ => Err CorruptRecord
      end
  | _, _, _ => Err CorruptRecord
  end.

(** Modelled from the spec: the record of a stage at pipeline creation
    (section 3), absent from the sources as code: pending and empty. *)
Definition pending_record : Json := obj [ ("status", JStr "pending") ].

(** Modelled from the spec: [init] (sections 3 and 6); the project
    initialisation of [scripts/context-manager.py] is absent from the
    sources.  Every stage of the registry starts [pending] and empty, and
    the pointer is on the first stage; the layout is the schema of
    context-management.md. *)
Definition init (reg : StageRegistry) (name : string) (preferences : Json)
    (now : string) : Json :=
  obj [ ("project", obj [ ("name", JStr name);
                          ("created_at", JStr now);
                          ("last_updated", JStr now) ]);
        ("current_stage", JStr (default "" (head (all_stages reg))));
        ("stages",
           JObj (list_to_map ((fun s => (s, pending_record)) <$> all_stages reg)));
        ("user_preferences", preferences) ].

(** ** The schema of a context *)

Definition registry_ids (reg : StageRegistry) : gset string :=
  list_to_set (all_stages reg).

(** The schema-completeness invariant: the [stages] mapping has exactly
    the identifiers of the registry, and [current_stage] is one of its
    keys. *)
Definition schema_complete (reg : StageRegistry) (context : Json) : Prop :=
  exists (sts : gmap string Json) (cur : string),
    stages context = Some sts /\
    dom sts = registry_ids reg /\
    current_stage context = Some cur /\
    cur ∈ dom sts.

(** Modelled from the spec: the status enumeration of section 3 (the
    schema of the sources lists the first three, the guide also writes
    [failed]). *)
Definition is_status (s : string) : bool :=
  bool_decide (s ∈ ["pending"; "in_progress"; "completed"; "failed"]).

(** Modelled from the spec: a StageRecord (section 3) as stored, absent
    from the sources as a check: a dict with a status of the enumeration. *)
Definition record_ok (v : Json) : bool :=
  match v with
  | JObj r => match status r with Some s => is_status s | None => false end
  | _ => false
  end.

(** Modelled from the spec: the schema of a Pipeline (section 3), absent
    from the sources as a check: the invariant above, and every stage a
    dict with a status of the enumeration. *)
Definition pipeline_ok (reg : StageRegistry) (context : Json) : bool :=
  match stages context, current_stage context with
  | Some sts, Some cur =>
      bool_decide (dom sts = registry_ids reg)
      && bool_decide (cur ∈ dom sts)
      && forallb (fun kv => record_ok kv.2) (map_to_list sts)
  | _, _ => false
  end.

(** Modelled from the spec: the version of the persisted layout (section
    6), absent from the sources, whose records carry none. *)
Definition schema_version : Z := 1.

(** Modelled from the spec: the document as persisted (section 6), absent
    from the sources: the fields of the pipeline and, beside them, the
    mandatory [schemaVersion]. *)
Definition versioned (context : Json) : Json :=
  match context with
  | JObj top => JObj (<["schemaVersion" := JNum schema_version]> top)
  | other => other
  end.

(** Modelled from the spec: the pipeline of a persisted document (sections
    3 and 6), absent from the sources: its fields without [schemaVersion],
    which belongs to the persisted layout and not to the Pipeline. *)
Definition unversioned (doc : Json) : Json :=
  match doc with
  | JObj top => JObj (delete "schemaVersion" top)
  | other => other
  end.

(** Modelled from the spec: the schema parse of a stored document
    (sections 3, 4.1 and 6), absent from the sources: the document has the
    [schemaVersion] of this layout, and its other fields are a Pipeline.  A
    document without [schemaVersion], or with another version, fails the
    parse. *)
Definition schema_ok (reg : StageRegistry) (doc : Json) : bool :=
  match field "schemaVersion" doc with
  | Some (JNum v) =>
      bool_decide (v = schema_version) && pipeline_ok reg (unversioned doc)
  | _ => false
  end.

(** ** [jumpTo]

    The guide shows one start mid-workflow, at the experiment stage with
    the three stages before it marked, and no check of any kind;
    workflow.md lists the starts "from any stage", each skipping all
    earlier stages.  The command that takes a target and the stages to
    assume, and refuses the jumps that are out of order, is not among the
    sources: transitions are validated by [scripts/state-checker.py],
    which the sources name and do not include. *)

(** Modelled from the spec: the guard of [jumpTo] (section 4.4), absent
    from the sources.  A jump is refused when [assumeCompleted] includes a
    stage at or after the target, or leaves out a stage between the
    pipeline start and the target.  The target has to be a stage of the
    registry ([currentStage] is "one of the ordered stage identifiers",
    section 3): a name without a position in the order is refused like any
    other jump that violates it (section 7). *)
Definition jump_allowed (reg : StageRegistry) (target : string)
    (assumeCompleted : list string) : bool :=
  match index target (all_stages reg) with
  | Ok i =>
      forallb (fun s => bool_decide (s ∈ assumeCompleted))
        (take i (all_stages reg))
      && forallb (fun s => negb (bool_decide (s ∈ assumeCompleted)))
           (drop i (all_stages reg))
  | Err _ => false
  end.

(** Modelled from the spec: "every stage in [assumeCompleted] that
    precedes [targetStageId] in registry order" (section 4.4), absent from
    the sources as code. *)
Definition attested (reg : StageRegistry) (target : string)
    (assumeCompleted : list string) : list string :=
  match index target (all_stages reg) with
  | Ok i => List.filter (fun s => bool_decide (s ∈ assumeCompleted))
              (take i (all_stages reg))
  | Err _ => []
  end.

(** Modelled from the spec: the command [jumpTo] (sections 4.4 and 6),
    absent from the sources, as far as they lack it: the guard and the
    result codes.  A jump the guard refuses is rejected with
    [InvalidTransition].  What an accepted jump writes is not modelled
    from the spec: it is the code of the guide, the assignments of
    [start_from] for the target and the attested stages before it.  A
    context the assignments cannot be made on is reported as
    [CorruptRecord]. *)
Definition jumpTo (reg : StageRegistry) (target : string)
    (assumeCompleted : list string) (context : Json) : result code Json :=
  if jump_allowed reg target assumeCompleted then
    match start_from target (attested reg target assumeCompleted) context with
    | Ok context' => Ok context'
    | Err _ => Err CorruptRecord
    end
  else Err InvalidTransition.


(** ** The pure effect of the assignments *)

(** [record[field] = value] on the value stored for a stage. *)
Definition assign (field : string) (value : Json) (record : Json) : Json :=
  match record with
  | JObj r => JObj (<[field := value]> r)
  | other => other
  end.

(** The stages after [record[field] = value] in each stage of a list. *)
Definition mark (field : string) (value : Json) (l : list string)
    (sts : gmap string Json) : gmap string Json :=
  foldl (fun m s => alter (assign field value) s m) sts l.

(** A stage has a dict in the [stages] mapping. *)
Definition has_record (sts : gmap string Json) (s : string) : Prop :=
  exists r, sts !! s = Some (JObj r).

(** The [stages] mapping after a rollback to the stage at position [i]. *)
Definition rolled_stages (target : string) (i : nat) (sts : gmap string Json)
  : gmap string Json :=
  alter (assign "status" (JStr "in_progress")) target
    (mark "status" (JStr "pending") (drop (S i) stages_order) sts).

(** The context [rollback_to_stage] saves, from the dict [top] it loaded
    and the [stages] mapping [sts] of that dict; [i] is the position of
    the target. *)
Definition rolled_back (target : string) (i : nat) (top sts : gmap string Json)
  : Json :=
  JObj (<["stages" := JObj (rolled_stages target i sts)]>
          (<["current_stage" := JStr target]> top)).

(** The context [start_from] saves. *)
Definition started (target : string) (skipped : list string)
    (top sts : gmap string Json) : Json :=
  JObj (<["stages" := JObj (mark "status" (JStr "completed") skipped sts)]>
          (<["current_stage" := JStr target]> top)).

(** A context as the guide's code expects it: a dict whose [stages] entry
    is a dict that has a dict for each of the five stages. *)
Definition well_formed (context : Json) : Prop :=
  exists top sts,
    context = JObj top /\ top !! "stages" = Some (JObj sts) /\
    Forall (has_record sts) stages_order.

(** The value stored for a stage. *)
Definition stage (s : string) (context : Json) : option Json :=
  match stages context with
  | Some sts => sts !! s
  | None => None
  end.

(** The guide's failure scenario: the first three stages are done, the
    experiment has failed and its error is recorded. *)
Definition failed_context : Json :=
  obj [ ("project_name", JStr "my-paper");
        ("current_stage", JStr "experiment");
        ("stages", obj
           [ ("literature_review",
                obj [ ("status", JStr "completed");
                      ("research_gap", JStr "...");
                      ("summary", JStr "...") ]);
             ("hypothesis", obj [ ("status", JStr "completed");
                                  ("hypotheses", JArr [JStr "H1"]) ]);
             ("code", obj [ ("status", JStr "completed");
                            ("repo_url", JStr "./repo");
                            ("config", JStr "config.yaml") ]);
             ("experiment", obj [ ("status", JStr "failed");
                                  ("error", JStr "Runtime error: ...");
                                  ("results", obj [ ("acc", JNum 1) ]) ]);
             ("writing", obj [ ("status", JStr "pending") ]) ]);
        ("user_preferences", obj [ ("discipline", JStr "cs") ]) ].

(** A pipeline that has been through all five stages. *)
Definition finished_context : Json :=
  obj [ ("project_name", JStr "my-paper");
        ("current_stage", JStr "writing");
        ("stages", obj
           [ ("literature_review", obj [ ("status", JStr "completed");
                                         ("summary", JStr "...") ]);
             ("hypothesis", obj [ ("status", JStr "completed") ]);
             ("code", obj [ ("status", JStr "completed");
                            ("repo_url", JStr "./repo") ]);
             ("experiment", obj [ ("status", JStr "completed");
                                  ("results", obj [ ("acc", JNum 1) ]) ]);
             ("writing", obj [ ("status", JStr "completed");
                               ("sections", obj [ ("abstract", JStr "...") ]) ]) ]);
        ("user_preferences", obj [ ("discipline", JStr "cs") ]) ].

(** The pipeline after a call of [advance]: a call that is rejected saves
    nothing. *)
Definition after_advance (reg : StageRegistry) (context : Json)
    (out : gmap string Json) : Json :=
  match advance reg context out with
  | Ok (context', _) => context'
  | Err _ => context
  end.

(** Scenario A of the design: pipeline "demo" with stages search and
    draft, after [advance] with the output of search. *)
Definition scenario_A : Json :=
  after_advance demo_registry
    (init demo_registry "demo" (obj []) "2024-01-01T00:00:00Z")
    {[ "query" := JStr "x" ]}.

(** A short run of the commands: a new pipeline, the literature review
    advanced, a start at the experiment stage, a rollback to [code]. *)
Definition new_pipeline : Json :=
  init paper_registry "my-paper" (obj [ ("discipline", JStr "cs") ])
    "2024-01-01T00:00:00Z".

Definition literature_output : gmap string Json :=
  list_to_map [ ("research_gap", JStr "gap");
                ("key_papers", JArr [JStr "p1"]);
                ("summary", JStr "s") ].

Definition after_review : Json :=
  after_advance paper_registry new_pipeline literature_output.

Definition after_jump : Json :=
  persisted after_review (start_from_experiment after_review).

Definition after_rollback : Json :=
  persisted after_jump (rollback_to_stage "code" after_jump).

(** "Handshake with next plugin": what the coordinator extracts from the
    context for the code plugin.  The values of a dict display are
    evaluated from left to right. *)
Definition plugin_input (context : Json) : result exn Json :=
  let! stages := getitem context "stages" in
  let! hypothesis_data := getitem stages "hypothesis" in
  let! hypotheses := getitem hypothesis_data "hypotheses" in
  let! variables := getitem hypothesis_data "variables" in
  Ok (obj [ ("hypothesis", hypotheses);
            ("variables", variables);
            ("from_stage", JStr "literature_review") ]).

(** A context with [current_stage] overwritten. *)
Definition with_current (v : Json) (context : Json) : Json :=
  match context with
  | JObj top => JObj (<["current_stage" := v]> top)
  | other => other
  end.

Definition map_ok {E A B} (f : A -> B) (r : result E A) : result E B :=
  match r with
  | Ok a => Ok (f a)
  | Err e => Err e
  end.

(** A context in which the code stage is done and the later stages have
    no entry yet. *)
Definition partial_context : Json :=
  obj [ ("current_stage", JStr "experiment");
        ("stages", obj
           [ ("hypothesis", obj [ ("status", JStr "completed");
                                  ("hypotheses", JArr [JStr "H1"]);
                                  ("variables", obj [ ("independent", JStr "x") ]) ]);
             ("code", obj [ ("status", JStr "completed") ]);
             ("experiment", obj [ ("status", JStr "in_progress") ]) ]) ].

(** Well-formedness of a concrete context, by evaluation. *)
Ltac well_formed_by_compute :=
  eexists _, _; split; [reflexivity|];
  split; [vm_compute; reflexivity|];
  repeat (constructor; [eexists; vm_compute; reflexivity|]); constructor.

Ltac stage_of_workflow := unfold stages_order; repeat constructor.

(** ** ContextStore

    [load_context] and [save_context] belong to [ContextManager], of which
    the sources show only calls.  The store follows the contract of the
    design (section 4.1): one versioned document per pipeline, keyed by the
    pipeline identifier (section 6), replaced on save by writing a
    temporary file and renaming it over the record (section 9). *)

(** Modelled from the spec: a Pipeline (section 3) as the store sees it,
    absent from the sources as a type: its identifier and its document. *)
Record Pipeline : Type := {
  pipeline_id : string;
  context_of : Json
}.

(** Modelled from the spec: the persisted state (sections 6 and 9), absent
    from the sources: the record of each pipeline, and the temporary files
    a save leaves behind. *)
Record Disk : Type := {
  records : gmap string Json;
  scratch : gmap string Json
}.

(** Modelled from the spec: the [IOError]s of a save (sections 4.1 and 7),
    absent from the sources: nothing goes wrong, the write of the
    temporary file fails (leaving nothing, or some part of the document),
    or the rename fails. *)
Inductive fault : Type :=
| NoFault
| WriteFault (left_behind : option Json)
| RenameFault.

(** Modelled from the spec: [ContextStore.load] (section 4.1), absent
    from the sources: the pipeline stored under the identifier, [NotFound]
    when there is none, [CorruptRecord] when the stored document fails the
    schema parse. *)
Definition load (reg : StageRegistry) (id : string) (disk : Disk)
  : result code Pipeline :=
  match records disk !! id with
  | None => Err NotFound
  | Some doc =>
      if schema_ok reg doc
      then Ok {| pipeline_id := id; context_of := unversioned doc |}
      else Err CorruptRecord
  end.

(** Modelled from the spec: [ContextStore.save] (sections 4.1, 6 and 9),
    absent from the sources.  The versioned document of the pipeline is
    written to a temporary file, which is then renamed over the record;
    either step can fail with [IOError].  The result is the disk
    afterwards and what the caller is told. *)
Definition save (f : fault) (p : Pipeline) (disk : Disk)
  : Disk * result code unit :=
  let id := pipeline_id p in
  let doc := versioned (context_of p) in
  match f with
  | WriteFault None => (disk, Err IOError)
  | WriteFault (Some part) =>
      ({| records := records disk; scratch := <[id := part]> (scratch disk) |},
       Err IOError)
  | RenameFault =>
      ({| records := records disk; scratch := <[id := doc]> (scratch disk) |},
       Err IOError)
  | NoFault =>
      ({| records := <[id := doc]> (records disk);
          scratch := delete id (scratch disk) |},
       Ok tt)
  end.

(** Modelled from the spec: [ContextStore.exists] (section 4.1), absent
    from the sources. *)
Definition exists_ (id : string) (disk : Disk) : bool :=
  bool_decide (is_Some (records disk !! id)).

Definition empty_disk : Disk := {| records := ∅; scratch := ∅ |}.

(** A disk that holds the context of the coordinator's SKILL.md as it is
    documented, without [schemaVersion]. *)
Definition legacy_disk : Disk :=
  {| records := {["old-paper" := example_context]}; scratch := ∅ |}.

(** ** The skill installers (scripts/install-codex.js, install-opencode.js)

    The installers differ in the directory they install to and share
    [install] and [copyDir] word for word.  They are embedded twice.
    [Installer], further down, has them on a file system with links, every
    call of [fs] resolving its path from the root.  [Tree] and [Scripts]
    have them on trees of plain files and directories, each function
    returning the directory it has written; the two embeddings agree on
    every file system without links ([install_plain]).  The directory of
    the sources is a tree of its own, which the installers read and never
    write to.  A call that throws leaves what was written before it in
    place, so every function returns the file system afterwards together
    with how it ended.  A call throws for what the file system holds: a
    file where a directory is needed, a directory where a file is to be
    written, a link that leads nowhere; permissions and failures of the
    disk are outside the model.

    [getOpenCodeSkillsDir] of install-opencode.js is left out: as the file
    stands, its list of candidates is followed by leftover lines and the
    function does not parse.  The skills directory is a parameter of
    [install], which all the scripts share. *)

(** *** On trees of plain files and directories *)

Module Tree.

Inductive node : Type :=
| File (data : string)
| Dir (entries : list (string * node)).

Inductive outcome : Type :=
| Done
| Thrown.

(** The entry of a directory with the given name. *)
Fixpoint child (name : string) (entries : list (string * node)) : option node :=
  match entries with
  | [] => None
  | (n, c) :: rest => if decide (name = n) then Some c else child name rest
  end.

(** Create or replace the entry with the given name. *)
Fixpoint put (name : string) (c : node) (entries : list (string * node))
  : list (string * node) :=
  match entries with
  | [] => [(name, c)]
  | (n, c') :: rest =>
      if decide (name = n) then (n, c) :: rest else (n, c') :: put name c rest
  end.

(** The node at a path below a node. *)
Fixpoint lookup_path (path : list string) (n : node) : option node :=
  match path with
  | [] => Some n
  | name :: path' =>
      match n with
      | Dir entries =>
          match child name entries with
          | Some c => lookup_path path' c
          | None => None
          end
      | File _ => None
      end
  end.

(** [if (!fs.existsSync(dest)) fs.mkdirSync(dest, { recursive: true })] *)
Definition ensure_dir (dest : option node) : node :=
  match dest with
  | Some d => d
  | None => Dir []
  end.

(** [copyDir(src, dest)]: [dest] is what the destination path holds, if
    anything.  [readdirSync] throws on a source that is a file, a path
    below a file cannot be written, and [copyFileSync] throws when the
    destination is a directory. *)
Fixpoint copyDir (src : node) (dest : option node) {struct src}
  : node * outcome :=
  let dest := ensure_dir dest in
  match src with
  | File _ => (dest, Thrown)
  | Dir entries =>
      (fix loop (entries : list (string * node)) (dest : node) {struct entries}
         : node * outcome :=
         match entries with
         | [] => (dest, Done)
         | (name, entry) :: rest =>
             match dest with
             | File _ => (dest, Thrown)
             | Dir present =>
                 match entry with
                 | Dir _ =>
                     let (sub, o) := copyDir entry (child name present) in
                     let dest' := Dir (put name sub present) in
                     match o with
                     | Done => loop rest dest'
                     | Thrown => (dest', Thrown)
                     end
                 | File data =>
                     match child name present with
                     | Some (Dir _) => (dest, Thrown)
                     | _ => loop rest (Dir (put name (File data) present))
                     end
                 end
             end
         end) entries dest
  end.

Definition SKILLS : list string :=
  [ "paper-assistant"; "paper-literature-review"; "paper-hypothesis";
    "paper-code"; "paper-experiment"; "paper-writing" ].

(** The loop of [install] over the skills: a skill the source has is
    copied, a missing one is skipped. *)
Fixpoint install_skills (skills : list string) (source : list (string * node))
    (dest : node) : node * outcome :=
  match skills with
  | [] => (dest, Done)
  | skill :: rest =>
      match child skill source with
      | Some src =>
          match dest with
          | File _ => (dest, Thrown)
          | Dir present =>
              let (sub, o) := copyDir src (child skill present) in
              let dest' := Dir (put skill sub present) in
              match o with
              | Done => install_skills rest source dest'
              | Thrown => (dest', Thrown)
              end
          end
      | None => install_skills rest source dest
      end
  end.

(** [install()]: [source] lists the directory the scripts live in,
    [skillsDir] is what the skills directory holds, if it exists. *)
Definition install (source : list (string * node)) (skillsDir : option node)
  : node * outcome :=
  install_skills SKILLS source (ensure_dir skillsDir).

(** A directory lists a name once, at every level. *)
Fixpoint names_unique (n : node) : Prop :=
  match n with
  | File _ => True
  | Dir entries =>
      NoDup entries.*1 /\
      (fix each (entries : list (string * node)) : Prop :=
         match entries with
         | [] => True
         | (_, c) :: rest => names_unique c /\ each rest
         end) entries
  end.

(** No entry of the source meets an entry of the other kind at the same
    place of the destination. *)
Fixpoint compatible (src : node) (dest : option node) {struct src} : Prop :=
  match src with
  | File _ => match dest with Some (Dir _) => False | _ => True end
  | Dir entries =>
      match dest with
      | Some (File _) => entries = []
      | Some (Dir present) =>
          (fix each (entries : list (string * node)) : Prop :=
             match entries with
             | [] => True
             | (name, c) :: rest => compatible c (child name present) /\ each rest
             end) entries
      | None => True
      end
  end.

(** The loop of [copyDir] over the entries of the source, on its own. *)
Fixpoint copy_entries (entries : list (string * node)) (dest : node)
  : node * outcome :=
  match entries with
  | [] => (dest, Done)
  | (name, entry) :: rest =>
      match dest with
      | File _ => (dest, Thrown)
      | Dir present =>
          match entry with
          | Dir _ =>
              let (sub, o) := copyDir entry (child name present) in
              let dest' := Dir (put name sub present) in
              match o with
              | Done => copy_entries rest dest'
              | Thrown => (dest', Thrown)
              end
          | File data =>
              match child name present with
              | Some (Dir _) => (dest, Thrown)
              | _ => copy_entries rest (Dir (put name (File data) present))
              end
          end
      end
  end.

(** The skills of a list that the source has, as the tree that is copied. *)
Definition copied_of (skills : list string) (source : list (string * node))
  : list (string * node) :=
  omap (fun skill => (fun src => (skill, src)) <$> child skill source) skills.

(** The part of the source that [install] copies. *)
Definition copied (source : list (string * node)) : node :=
  Dir (copied_of SKILLS source).

(** From [before] to [after], files were only added or overwritten by
    files of [src] at the same path: a file of [before] that has no file
    of [src] at its path is still there with its content, and every file
    of [after] is one of [before] or one of [src]. *)
Definition adds_only (src before after : node) : Prop :=
  forall path data,
    (lookup_path path before = Some (File data) ->
     (forall x, lookup_path path src ≠ Some (File x)) ->
     lookup_path path after = Some (File data)) /\
    (lookup_path path after = Some (File data) ->
     lookup_path path before = Some (File data) \/
     lookup_path path src = Some (File data)).

(** Every file of [src] is in [after], at the same path, with its content. *)
Definition copied_all (src after : node) : Prop :=
  forall path data,
    lookup_path path src = Some (File data) ->
    lookup_path path after = Some (File data).

(** What a copy may have done, also when it was cut short. *)
Definition copy_sound (src : node) : Prop :=
  forall dest d' o,
    copyDir src dest = (d', o) ->
    adds_only src (ensure_dir dest) d' /\ (o = Done -> copied_all src d').

(** The entries of a source directory against what the destination holds. *)
Definition compatible_entries (entries : list (string * node)) (dest : node)
  : Prop :=
  match dest with
  | File _ => entries = []
  | Dir present =>
      Forall (fun e => compatible e.2 (child e.1 present)) entries
  end.

Definition demo_source : list (string * node) :=
  [ ("paper-code", Dir [ ("SKILL.md", File "code skill");
                         ("references", Dir [ ("best-practices.md", File "bp") ]) ]);
    ("paper-writing", Dir [ ("SKILL.md", File "writing skill") ]);
    ("README.md", File "readme") ].

Definition demo_dest : node :=
  Dir [ ("paper-code", Dir [ ("SKILL.md", File "old");
                             ("notes.txt", File "mine") ]);
        ("other-skill", Dir [ ("SKILL.md", File "other") ]) ].

End Tree.

(** *** [install] on a whole tree

    [install()] is called on the skills directory the script chooses.
    Paths are lists of names below the root of the file system. *)

Module Scripts.
Import Tree.

(** [fs.existsSync(p)] *)
Definition existsSync (root : node) (p : list string) : bool :=
  bool_decide (is_Some (lookup_path p root)).

(** [fs.mkdirSync(p, { recursive: true })] below a node: the directories
    that are missing are created; a file on the way makes it throw. *)
Fixpoint mkdir_p (p : list string) (n : node) : option node :=
  match p with
  | [] => match n with Dir _ => Some n | File _ => None end
  | name :: p' =>
      match n with
      | File _ => None
      | Dir entries =>
          match mkdir_p p' (ensure_dir (child name entries)) with
          | Some c => Some (Dir (put name c entries))
          | None => None
          end
      end
  end.

(** The tree with the node at an existing path replaced. *)
Fixpoint replace_at (p : list string) (new : node) (n : node) : node :=
  match p with
  | [] => new
  | name :: p' =>
      match n with
      | Dir entries =>
          match child name entries with
          | Some c => Dir (put name (replace_at p' new c) entries)
          | None => n
          end
      | File _ => n
      end
  end.

(** [install()] on the whole file system, for the skills directory the
    script has chosen: the directory is created when nothing is there,
    then the skills are copied below it. *)
Definition install_at (skillsDir : list string) (source : list (string * node))
    (root : node) : node * outcome :=
  let dest := lookup_path skillsDir root in
  match (match dest with Some _ => Some root | None => mkdir_p skillsDir root end) with
  | None => (root, Thrown)
  | Some root1 =>
      let (dest', o) := install source dest in
      (replace_at skillsDir dest' root1, o)
  end.

(** [entry.isDirectory()] *)
Definition is_dir (n : node) : bool :=
  match n with
  | Dir _ => true
  | File _ => false
  end.

(** Everything that was at some path is still there afterwards, a
    directory as a directory and a file as a file. *)
Definition kept (before after : node) : Prop :=
  forall path n,
    lookup_path path before = Some n ->
    exists n', lookup_path path after = Some n' /\ is_dir n' = is_dir n.

(** Copying a source a second time changes nothing. *)
Definition copy_settled (src : node) : Prop :=
  forall dest d',
    copyDir src dest = (d', Done) -> copyDir src (Some d') = (d', Done).

(** Nothing stands in the way of the install: no plain file lies at the
    skills directory or on the way to it, and every skill the source has
    is a directory and meets no entry of the other kind at the
    destination.  A skill the source lacks asks for nothing. *)
Definition installable (skillsDir : list string) (source : list (string * node))
    (root : node) : Prop :=
  (forall q x, q `prefix_of` skillsDir -> lookup_path q root ≠ Some (File x)) /\
  forall skill src,
    skill ∈ SKILLS -> child skill source = Some src ->
    (exists entries, src = Dir entries) /\
    compatible src (lookup_path (skillsDir ++ [skill]) root).

(** A home directory with a Codex configuration and another tool's
    skills. *)
Definition demo_root : node :=
  Dir [ ("home", Dir [ ("u", Dir
          [ (".config", Dir [ ("codex", Dir [ ("skills", demo_dest) ]);
                              ("notes.txt", File "keep") ]);
            (".bashrc", File "rc") ]) ]) ].

End Scripts.

(** *** On a file system with links

    Every call of [fs] names a path from the root of the file system and
    resolves it there, following the links on its way. *)

Module Installer.
Import Tree.

(** A file system: plain files, directories and links.  The target of a
    link is the path from the root that the link stands for.  A second
    name of a file (a hard link) is a link to it as well: the installers
    remove and rename nothing, so they cannot tell it from a symbolic
    link. *)
Inductive node : Type :=
| File (data : string)
| Dir (entries : list (string * node))
| Link (target : list string).

(** The entry of a directory with the given name. *)
Fixpoint child (name : string) (entries : list (string * node)) : option node :=
  match entries with
  | [] => None
  | (n, c) :: rest => if decide (name = n) then Some c else child name rest
  end.

(** Create or replace the entry with the given name. *)
Fixpoint put (name : string) (c : node) (entries : list (string * node))
  : list (string * node) :=
  match entries with
  | [] => [(name, c)]
  | (n, c') :: rest =>
      if decide (name = n) then (n, c) :: rest else (n, c') :: put name c rest
  end.

(** The node at a path, no link followed. *)
Fixpoint lookup_path (path : list string) (n : node) : option node :=
  match path with
  | [] => Some n
  | name :: path' =>
      match n with
      | Dir entries =>
          match child name entries with
          | Some c => lookup_path path' c
          | None => None
          end
      | _ => None
      end
  end.

(** The file system with [new] at a path that has no link on it and whose
    directory exists: the entry is created or replaced. *)
Fixpoint store (path : list string) (new : node) (n : node) : node :=
  match path with
  | [] => new
  | name :: rest =>
      match n with
      | Dir entries =>
          match rest with
          | [] => Dir (put name new entries)
          | _ :: _ =>
              match child name entries with
              | Some c => Dir (put name (store rest new c) entries)
              | None => n
              end
          end
      | _ => n
      end
  end.

(** What a path resolves to: a file or directory, with the path without
    links that leads to it; nothing, in a directory that exists; or no
    place at all, when a directory on the way is missing or is a file, or
    the links on the way do not end. *)
Inductive resolution : Type :=
| Found (real : list string) (n : node)
| Absent (parent : list string) (name : string)
| Unresolved.

(** One walk down a path from the node [n], which lies at [real].  A link,
    also as the last name, is followed: the rest of the path goes on from
    its target. *)
Fixpoint walk (follow : list string -> resolution) (real : list string)
    (n : node) (path : list string) : resolution :=
  match path with
  | [] => Found real n
  | name :: rest =>
      match n with
      | Dir entries =>
          match child name entries with
          | None =>
              match rest with
              | [] => Absent real name
              | _ :: _ => Unresolved
              end
          | Some (Link target) => follow (target ++ rest)%list
          | Some c => walk follow (real ++ [name])%list c rest
          end
      | _ => Unresolved
      end
  end.

(** Resolution from the root, following at most [fuel] links. *)
Fixpoint resolve (fuel : nat) (root : node) (path : list string) : resolution :=
  walk (match fuel with
        | 0 => fun _ => Unresolved
        | S fuel' => resolve fuel' root
        end) [] root path.

(** The number of links the kernel follows in one path before it gives up
    with [ELOOP]. *)
Definition MAXSYMLINKS : nat := 40.

Definition stat (root : node) (path : list string) : resolution :=
  resolve MAXSYMLINKS root path.

(** [fs.existsSync(p)] *)
Definition existsSync (root : node) (path : list string) : bool :=
  match stat root path with
  | Found _ _ => true
  | _ => false
  end.

(** [fs.mkdirSync(p, { recursive: true })], one name of the path after the
    other: a name that is missing is created as a directory, a name that
    leads to a directory is passed, and any other name, a plain file or a
    link that leads to no directory, makes it throw. *)
Fixpoint mkdir_from (root : node) (done rest : list string) : option node :=
  match rest with
  | [] => Some root
  | name :: rest' =>
      match stat root done with
      | Found real (Dir entries) =>
          match child name entries with
          | None =>
              mkdir_from (store (real ++ [name])%list (Dir []) root)
                (done ++ [name])%list rest'
          | Some _ =>
              match stat root (done ++ [name])%list with
              | Found _ (Dir _) => mkdir_from root (done ++ [name])%list rest'
              | _ => None
              end
          end
      | _ => None
      end
  end.

Definition mkdirSync (root : node) (path : list string) : option node :=
  mkdir_from root [] path.

(** [fs.copyFileSync(src, dest)] for a source file with the content
    [data].  The destination is opened for writing through any link: a
    file there is overwritten where it really lies, a file that is absent
    is created where the path resolves to, and a directory there, or a
    path that resolves to no place, makes it throw. *)
Definition copyFileSync (data : string) (dest : list string) (root : node)
  : option node :=
  match stat root dest with
  | Found real (File _) => Some (store real (File data) root)
  | Absent parent name => Some (store (parent ++ [name])%list (File data) root)
  | _ => None
  end.

(** [if (!fs.existsSync(dest)) fs.mkdirSync(dest, { recursive: true })] *)
Definition ensure_dir (dest : list string) (root : node) : option node :=
  if existsSync root dest then Some root else mkdirSync root dest.

(** [copyDir(src, dest)]: [src] is the tree at the source path, [dest] the
    destination path.  [readdirSync] throws on a source that is a file. *)
Fixpoint copyDir (src : Tree.node) (dest : list string) (root : node)
    {struct src} : node * outcome :=
  match ensure_dir dest root with
  | None => (root, Thrown)
  | Some root =>
      match src with
      | Tree.File _ => (root, Thrown)
      | Tree.Dir entries =>
          (fix loop (entries : list (string * Tree.node)) (root : node)
             {struct entries} : node * outcome :=
             match entries with
             | [] => (root, Done)
             | (name, entry) :: rest =>
                 match entry with
                 | Tree.Dir _ =>
                     let (root', o) := copyDir entry (dest ++ [name])%list root in
                     match o with
                     | Done => loop rest root'
                     | Thrown => (root', Thrown)
                     end
                 | Tree.File data =>
                     match copyFileSync data (dest ++ [name])%list root with
                     | Some root' => loop rest root'
                     | None => (root, Thrown)
                     end
                 end
             end) entries root
      end
  end.

(** The loop of [install] over the skills: a skill the source has is
    copied, a missing one is skipped. *)
Fixpoint install_skills (skills : list string) (skillsDir : list string)
    (source : list (string * Tree.node)) (root : node) : node * outcome :=
  match skills with
  | [] => (root, Done)
  | skill :: rest =>
      match Tree.child skill source with
      | Some src =>
          let (root', o) := copyDir src (skillsDir ++ [skill])%list root in
          match o with
          | Done => install_skills rest skillsDir source root'
          | Thrown => (root', Thrown)
          end
      | None => install_skills rest skillsDir source root
      end
  end.

(** [install()], for the skills directory the script has chosen: [source]
    lists the directory the scripts live in. *)
Definition install (skillsDir : list string) (source : list (string * Tree.node))
    (root : node) : node * outcome :=
  match ensure_dir skillsDir root with
  | None => (root, Thrown)
  | Some root => install_skills SKILLS skillsDir source root
  end.

(** The candidates of [getCodexSkillsDir], below the home directory. *)
Definition codex_candidates (home : list string) : list (list string) :=
  [ (home ++ [".codex"; "skills"])%list;
    (home ++ [".config"; "codex"; "skills"])%list;
    (home ++ ["Library"; "Application Support"; "Codex"; "Skills"])%list ].

(** [getCodexSkillsDir()]: the first candidate that exists, the first
    candidate when none does. *)
Definition getCodexSkillsDir (root : node) (home : list string) : list string :=
  let candidates := codex_candidates home in
  match List.find (existsSync root) candidates with
  | Some dir => dir
  | None => hd [] candidates
  end.

(** [getClaudeCodeSkillsDir()] *)
Definition getClaudeCodeSkillsDir (home : list string) : list string :=
  (home ++ [".config"; "claude-code"; "skills"])%list.

(** install-codex.js as a whole. *)
Definition install_codex (home : list string)
    (source : list (string * Tree.node)) (root : node) : node * outcome :=
  install (getCodexSkillsDir root home) source root.

(** The loop of [copyDir] over the entries of the source, on its own. *)
Fixpoint copy_entries (entries : list (string * Tree.node)) (dest : list string)
    (root : node) : node * outcome :=
  match entries with
  | [] => (root, Done)
  | (name, entry) :: rest =>
      match entry with
      | Tree.Dir _ =>
          let (root', o) := copyDir entry (dest ++ [name])%list root in
          match o with
          | Done => copy_entries rest dest root'
          | Thrown => (root', Thrown)
          end
      | Tree.File data =>
          match copyFileSync data (dest ++ [name])%list root with
          | Some root' => copy_entries rest dest root'
          | None => (root, Thrown)
          end
      end
  end.

(** A tree of plain files and directories as a file system: one without
    links. *)
Fixpoint plain (n : Tree.node) : node :=
  match n with
  | Tree.File data => File data
  | Tree.Dir entries =>
      Dir ((fix each (entries : list (string * Tree.node)) :=
              match entries with
              | [] => []
              | (name, c) :: rest => (name, plain c) :: each rest
              end) entries)
  end.

Definition plain_entries (entries : list (string * Tree.node))
  : list (string * node) :=
  (fun e => (e.1, plain e.2)) <$> entries.

(** What [copyDir] does below a directory of a file system without links:
    what it does on the tree. *)
Definition copies_as_tree (src : Tree.node) : Prop :=
  forall p name root present,
    Tree.lookup_path p root = Some (Tree.Dir present) ->
    copyDir src (p ++ [name]) (plain root) =
      let (sub, o) := Tree.copyDir src (Tree.child name present) in
      (plain (Scripts.replace_at p (Tree.Dir (Tree.put name sub present)) root),
       o).

(** Two nodes of the same kind: two files, two directories, or two links
    to the same target. *)
Definition same_kind (n n' : node) : Prop :=
  match n, n' with
  | File _, File _ => True
  | Dir _, Dir _ => True
  | Link t, Link t' => t = t'
  | _, _ => False
  end.

(** Everything that was at some path is still there afterwards: a
    directory as a directory, a file as a file, and a link as a link to
    the same target. *)
Definition preserved (before after : node) : Prop :=
  forall path n,
    lookup_path path before = Some n ->
    exists n', lookup_path path after = Some n' /\ same_kind n n'.

(** A skills directory in which [paper-code/SKILL.md] is a link to the
    notes kept beside it. *)
Definition linked_root : node :=
  Dir [ ("skills", Dir
          [ ("paper-code",
               Dir [ ("SKILL.md", Link ["skills"; "paper-code"; "notes.txt"]);
                     ("notes.txt", File "mine") ]);
            ("other-skill", Dir [ ("SKILL.md", File "other") ]) ]) ].

End Installer.

(** * Properties *)

(** ** The error monad *)

Lemma bind_Ok {E A B} (r : result E A) (k : A -> result E B) b :
  bind r k = Ok b <-> exists a, r = Ok a /\ k a = Ok b.
Proof.
  destruct r as [a|e]; simpl; split; try done.
  - intros H. by exists a.
  - by intros (a' & [= <-] & H).
  - by intros (a' & [=] & _).
Qed.

(** ** The loops over stages *)

Lemma assign_idem f v x : assign f v (assign f v x) = assign f v x.
Proof. destruct x; simpl; try done. by rewrite insert_insert_eq. Qed.

Lemma mark_lookup f v l sts s :
  mark f v l sts !! s =
    if decide (s ∈ l) then assign f v <$> sts !! s else sts !! s.
Proof.
  revert sts. induction l as [|x l IH]; intros sts; simpl.
  - done.
  - rewrite IH. destruct (decide (s = x)) as [->|Hne].
    + rewrite lookup_alter_eq, (decide_True (P := x ∈ x :: l)) by set_solver.
      case_decide; [|done].
      destruct (sts !! x); simpl; [|done]. by rewrite assign_idem.
    + rewrite lookup_alter_ne by done.
      destruct (decide (s ∈ l)).
      * rewrite decide_True; [done | set_solver].
      * rewrite decide_False; [done | set_solver].
Qed.

Lemma mark_dom f v l sts : dom (mark f v l sts) = dom sts.
Proof.
  revert sts. induction l as [|x l IH]; intros sts; simpl; [done|].
  rewrite IH. apply dom_alter_L.
Qed.

Lemma mark_has_record f v l sts s :
  has_record (mark f v l sts) s <-> has_record sts s.
Proof.
  unfold has_record. rewrite mark_lookup.
  destruct (decide (s ∈ l)); [|done].
  destruct (sts !! s) as [[]|]; simpl; split; intros [r Hr]; try done; eauto.
Qed.

Lemma set_field_Ok f v s context context' :
  set_field f v s context = Ok context' <->
  exists top sts r,
    context = JObj top /\ top !! "stages" = Some (JObj sts) /\
    sts !! s = Some (JObj r) /\
    context' = JObj (<["stages" := JObj (<[s := JObj (<[f := v]> r)]> sts)]> top).
Proof.
  unfold set_field. split.
  - destruct context as [| | | | |top]; simpl; try done.
    destruct (top !! "stages") as [[| | | | |sts]|] eqn:Hs; simpl; try done.
    destruct (sts !! s) as [[| | | | |r]|] eqn:Hr; simpl; try done.
    intros [= <-]. by exists top, sts, r.
  - intros (top & sts & r & -> & Hs & Hr & ->). simpl.
    rewrite Hs. simpl. by rewrite Hr.
Qed.

Lemma set_field_alter f v (s : string) (sts : gmap string Json) r :
  sts !! s = Some (JObj r) ->
  <[s := JObj (<[f := v]> r)]> sts = alter (assign f v) s sts.
Proof.
  intros Hr. apply map_eq. intros k. destruct (decide (k = s)) as [->|].
  - by rewrite lookup_insert_eq, lookup_alter_eq, Hr.
  - by rewrite lookup_insert_ne, lookup_alter_ne.
Qed.

(** The loop goes through when every stage of the list has a dict, and
    then changes one field in each. *)
Lemma for_each_set_field_Ok f v l top sts :
  top !! "stages" = Some (JObj sts) ->
  Forall (has_record sts) l ->
  for_each (set_field f v) l (JObj top) =
    Ok (JObj (<["stages" := JObj (mark f v l sts)]> top)).
Proof.
  revert top sts. induction l as [|x l IH]; intros top sts Hs Hall; simpl.
  - by rewrite insert_id.
  - inversion Hall as [|? ? [r Hr] Hall']; subst.
    assert (set_field f v x (JObj top) =
            Ok (JObj (<["stages" := JObj (alter (assign f v) x sts)]> top))) as ->.
    { apply set_field_Ok. exists top, sts, r.
      by rewrite (set_field_alter f v x sts r). }
    simpl. rewrite (IH _ (alter (assign f v) x sts)).
    + by rewrite insert_insert_eq.
    + by rewrite lookup_insert_eq.
    + eapply Forall_impl; [exact Hall'|]. intros s [r' Hr'].
      unfold has_record. destruct (decide (s = x)) as [->|].
      * rewrite lookup_alter_eq, Hr'. simpl. eauto.
      * rewrite lookup_alter_ne by done. eauto.
Qed.

(** Conversely, a loop that goes through met a dict for every stage. *)
Lemma for_each_set_field_inv f v l context context' :
  for_each (set_field f v) l context = Ok context' ->
  l = [] /\ context' = context \/
  exists top sts,
    context = JObj top /\ top !! "stages" = Some (JObj sts) /\
    Forall (has_record sts) l.
Proof.
  revert context. induction l as [|x l IH]; intros context; simpl.
  - intros [= <-]. by left.
  - destruct (set_field f v x context) as [c1|] eqn:H1; simpl; [|done].
    intros H2. right.
    apply set_field_Ok in H1 as (top & sts & r & -> & Hs & Hr & ->).
    exists top, sts. split; [done|]. split; [done|].
    constructor; [by exists r|].
    apply IH in H2 as [[-> _]|(top' & sts' & [= <-] & Hs' & Hall)]; [done|].
    rewrite lookup_insert_eq in Hs'. injection Hs' as <-.
    eapply Forall_impl; [exact Hall|]. intros s [r' Hr'].
    unfold has_record. destruct (decide (s = x)) as [->|]; [eauto|].
    rewrite lookup_insert_ne in Hr' by done. eauto.
Qed.

(** ** [index] *)

Lemma index_Ok t l i :
  index t l = Ok i -> l !! i = Some t /\ t ∉ take i l.
Proof.
  revert i. induction l as [|y l IH]; intros i; simpl; [done|].
  case_decide as Hd.
  - intros [= <-]. subst. split; [done | set_solver].
  - destruct (index t l) as [j|]; simpl; [|done].
    intros [= <-]. destruct (IH j eq_refl) as [H1 H2].
    split; [done|]. simpl. set_solver.
Qed.

Lemma index_elem_of t l : t ∈ l -> exists i, index t l = Ok i.
Proof.
  induction l as [|y l IH]; [set_solver|]. intros Hin. simpl.
  case_decide; [by eexists|].
  destruct IH as [i ->]; [set_solver|]. by eexists.
Qed.

Lemma stages_order_NoDup : NoDup stages_order.
Proof. unfold stages_order. repeat (constructor; [set_solver|]). constructor. Qed.

(** The target is not among the stages after it. *)
Lemma index_not_later t i :
  index t stages_order = Ok i -> t ∉ drop (S i) stages_order.
Proof.
  intros [Hi _]%index_Ok Hin.
  apply list_elem_of_lookup in Hin as [j Hj]. rewrite lookup_drop in Hj.
  pose proof (NoDup_lookup _ _ _ _ stages_order_NoDup Hi Hj). lia.
Qed.

(** ** [rollback_to_stage] in closed form *)

Lemma rollback_to_stage_inv target context context' :
  rollback_to_stage target context = Ok context' ->
  exists i top sts,
    index target stages_order = Ok i /\
    context = JObj top /\ top !! "stages" = Some (JObj sts) /\
    Forall (has_record sts) (target :: drop (S i) stages_order) /\
    context' = rolled_back target i top sts.
Proof.
  unfold rollback_to_stage.
  intros (i & Hi & (c1 & Hloop & (c2 & Hset & Hlast)%bind_Ok)%bind_Ok)%bind_Ok.
  set (later := drop (S i) stages_order) in *.
  destruct c1 as [| | | | |top1]; simpl in Hset; try done.
  injection Hset as <-.
  apply set_field_Ok in Hlast as (top' & sts1 & r & [= <-] & Hs1 & Hr & ->).
  rewrite lookup_insert_ne in Hs1 by done.
  exists i.
  assert (exists top sts,
    context = JObj top /\ top !! "stages" = Some (JObj sts) /\
    Forall (has_record sts) later) as (top & sts & -> & Hs & Hall).
  { apply for_each_set_field_inv in Hloop as Hinv.
    destruct Hinv as [[Hnil <-]|]; [|done].
    exists top1, sts1. rewrite Hnil. by repeat split. }
  exists top, sts. unfold set_status in Hloop.
  rewrite (for_each_set_field_Ok _ _ _ _ sts) in Hloop by done.
  injection Hloop as <-. rewrite lookup_insert_eq in Hs1. injection Hs1 as <-.
  repeat split; [done|done| |].
  - constructor; [|done]. apply (mark_has_record "status" (JStr "pending") later).
    by exists r.
  - unfold rolled_back, rolled_stages. fold later. f_equal.
    rewrite (set_field_alter _ _ _ _ r) by done.
    rewrite (insert_insert_ne _ "current_stage" "stages") by done.
    by rewrite insert_insert_eq.
Qed.

Lemma rollback_to_stage_total target i top sts :
  index target stages_order = Ok i ->
  top !! "stages" = Some (JObj sts) ->
  Forall (has_record sts) (target :: drop (S i) stages_order) ->
  rollback_to_stage target (JObj top) = Ok (rolled_back target i top sts).
Proof.
  intros Hi Hs Hall. inversion Hall as [|? ? Ht Hlater]; subst.
  unfold rollback_to_stage. rewrite Hi. cbn [bind]. unfold set_status.
  rewrite (for_each_set_field_Ok _ _ _ _ sts) by done. cbn [bind setitem].
  apply (mark_has_record "status" (JStr "pending") (drop (S i) stages_order))
    in Ht as [r Hr].
  apply set_field_Ok. eexists _, _, r. split; [done|].
  split; [by rewrite lookup_insert_ne, lookup_insert_eq|]. split; [done|].
  unfold rolled_back, rolled_stages. f_equal.
  rewrite (set_field_alter _ _ _ _ r) by done.
  rewrite (insert_insert_ne _ "current_stage" "stages") by done.
  by rewrite insert_insert_eq.
Qed.

Lemma assign_assign f v w x : assign f v (assign f w x) = assign f v x.
Proof. destruct x; simpl; try done. by rewrite insert_insert_eq. Qed.

Lemma rolled_stages_lookup target i sts s :
  index target stages_order = Ok i ->
  rolled_stages target i sts !! s =
    if decide (s = target) then assign "status" (JStr "in_progress") <$> sts !! s
    else if decide (s ∈ drop (S i) stages_order)
         then assign "status" (JStr "pending") <$> sts !! s
         else sts !! s.
Proof.
  intros Hi. unfold rolled_stages. case_decide as Hs.
  - subst. rewrite lookup_alter_eq, mark_lookup.
    rewrite decide_False; [done|]. by apply index_not_later.
  - by rewrite lookup_alter_ne, mark_lookup.
Qed.

Lemma rolled_stages_dom target i sts :
  dom (rolled_stages target i sts) = dom sts.
Proof. unfold rolled_stages. by rewrite dom_alter_L, mark_dom. Qed.

Lemma rolled_stages_has_record target i sts s :
  has_record (rolled_stages target i sts) s <-> has_record sts s.
Proof.
  unfold rolled_stages, has_record. destruct (decide (s = target)) as [->|].
  - rewrite lookup_alter_eq.
    pose proof (mark_has_record "status" (JStr "pending")
                  (drop (S i) stages_order) sts target) as Hm.
    unfold has_record in Hm. rewrite <- Hm.
    destruct (mark _ _ _ sts !! target) as [[]|]; simpl;
      split; intros [r Hr]; try done; eauto.
  - rewrite lookup_alter_ne by done. apply mark_has_record.
Qed.

Lemma rolled_stages_idem target i sts :
  index target stages_order = Ok i ->
  rolled_stages target i (rolled_stages target i sts) =
    rolled_stages target i sts.
Proof.
  intros Hi. apply map_eq. intros s.
  rewrite !(rolled_stages_lookup target i _ s) by done.
  repeat case_decide; try done;
    destruct (sts !! s); simpl; try done; by rewrite assign_assign.
Qed.

Lemma stage_record_stage s context r :
  stage_record s context = Some r <-> stage s context = Some (JObj r).
Proof.
  unfold stage_record, stage. destruct (stages context) as [sts|]; [|done].
  destruct (sts !! s) as [[]|]; split; intros [=]; by subst.
Qed.

(** ** Rollback *)

(** What [rollback_to_stage] does to a well-formed context: it succeeds
    for every stage of the workflow, moves the pointer to the target, gives
    the target the status [in_progress] and every later stage the status
    [pending] without touching their other fields, and leaves the earlier
    stages as they were. *)
Lemma rollback_to_stage_spec context target :
  well_formed context -> target ∈ stages_order ->
  exists context' i,
    rollback_to_stage target context = Ok context' /\
    index target stages_order = Ok i /\
    well_formed context' /\
    current_stage context' = Some target /\
    (forall r, stage_record target context = Some r ->
       stage_record target context' = Some (<["status" := JStr "in_progress"]> r)) /\
    (forall s r, s ∈ drop (S i) stages_order ->
       stage_record s context = Some r ->
       stage_record s context' = Some (<["status" := JStr "pending"]> r)) /\
    (forall s, s ≠ target -> s ∉ drop (S i) stages_order ->
       stage s context' = stage s context) /\
    (forall k, k ≠ "stages" -> k ≠ "current_stage" ->
       field k context' = field k context).
Proof.
  intros (top & sts & -> & Hs & Hall) Hin.
  destruct (index_elem_of _ _ Hin) as [i Hi].
  exists (rolled_back target i top sts), i.
  assert (Forall (has_record sts) (target :: drop (S i) stages_order)) as Hall'.
  { rewrite Forall_forall in *. intros s Hs'. apply Hall.
    apply elem_of_cons in Hs' as [->|Hs']; [done|].
    by eapply (subseteq_drop (S i)). }
  split; [by apply rollback_to_stage_total|]. split; [done|].
  assert (stages (rolled_back target i top sts) =
          Some (rolled_stages target i sts)) as Hst.
  { unfold stages, field, rolled_back. by rewrite lookup_insert_eq. }
  assert (forall s, stage s (JObj top) = sts !! s) as Hstage.
  { intros s. unfold stage, stages, field. by rewrite Hs. }
  split; [|split; [|split; [|split; [|split]]]].
  - exists (<["stages" := JObj (rolled_stages target i sts)]>
              (<["current_stage" := JStr target]> top)), (rolled_stages target i sts).
    split; [done|]. split; [by rewrite lookup_insert_eq|].
    eapply Forall_impl; [exact Hall|]. intros s. apply rolled_stages_has_record.
  - unfold current_stage, field, rolled_back.
    by rewrite lookup_insert_ne, lookup_insert_eq.
  - intros r. rewrite !stage_record_stage. unfold stage at 2. rewrite Hst, Hstage.
    rewrite rolled_stages_lookup, decide_True by done. by intros ->.
  - intros s r Hlater. rewrite !stage_record_stage. unfold stage at 2.
    rewrite Hst, Hstage, rolled_stages_lookup by done.
    rewrite decide_False, decide_True; [by intros ->|done|].
    intros ->. by eapply index_not_later.
  - intros s Hne Hnot. unfold stage at 1.
    rewrite Hst, Hstage, rolled_stages_lookup by done.
    by rewrite !decide_False.
  - intros k H1 H2. unfold field, rolled_back. by rewrite !lookup_insert_ne.
Qed.

(** A name that is no stage of the workflow is refused by [index], and a
    stage without a dict by the lookup. *)
Example rollback_to_unknown_stage :
  rollback_to_stage "draft" example_context = Err ValueError.
Proof. vm_compute. reflexivity. Qed.

Example rollback_without_record :
  rollback_to_stage "code"
    (obj [ ("stages", obj [ ("code", obj []); ("experiment", obj []) ]) ])
    = Err (KeyError "writing").
Proof. vm_compute. reflexivity. Qed.

(** C1 (as stated) fails on the guide's own scenario: after the experiment
    has failed, [rollback_to_stage("code")] leaves the target [code] with
    status [in_progress], not [pending], and with its output, and the
    later stage [experiment] keeps its error and its results. *)
Lemma rollback_to_stage_target_not_pending :
  exists context' code_rec experiment_rec,
    rollback_to_stage "code" failed_context = Ok context' /\
    stage_record "code" context' = Some code_rec /\
    status code_rec = Some "in_progress" /\
    code_rec !! "repo_url" = Some (JStr "./repo") /\
    stage_record "experiment" context' = Some experiment_rec /\
    status experiment_rec = Some "pending" /\
    experiment_rec !! "error" = Some (JStr "Runtime error: ...") /\
    is_Some (experiment_rec !! "results").
Proof.
  set (context' := persisted failed_context
                     (rollback_to_stage "code" failed_context)).
  exists context',
    (default ∅ (stage_record "code" context')),
    (default ∅ (stage_record "experiment" context')).
  split; [vm_compute; reflexivity|].
  split; [vm_compute; reflexivity|].
  split; [vm_compute; reflexivity|].
  split; [vm_compute; reflexivity|].
  split; [vm_compute; reflexivity|].
  split; [vm_compute; reflexivity|].
  split; [vm_compute; reflexivity|].
  exists (obj [ ("acc", JNum 1) ]). vm_compute. reflexivity.
Qed.

(** C1 (amended): for every well-formed context and every stage of the
    workflow, [rollback_to_stage] succeeds, sets [current_stage] to the
    target, sets the status of the target to [in_progress] and the status
    of every later stage to [pending], changes no other field of those
    stages, and leaves every earlier stage as it was. *)
Theorem rollback_to_stage_resets_status context target :
  well_formed context -> target ∈ stages_order ->
  exists context' i,
    rollback_to_stage target context = Ok context' /\
    index target stages_order = Ok i /\
    current_stage context' = Some target /\
    (forall r, stage_record target context = Some r ->
       stage_record target context' = Some (<["status" := JStr "in_progress"]> r)) /\
    (forall s r, s ∈ drop (S i) stages_order ->
       stage_record s context = Some r ->
       stage_record s context' = Some (<["status" := JStr "pending"]> r)) /\
    (forall s, s ∈ take i stages_order -> stage s context' = stage s context).
Proof.
  intros Hwf Hin.
  destruct (rollback_to_stage_spec context target Hwf Hin)
    as (context' & i & Hrun & Hi & _ & Hcur & Htarget & Hlater & Hother & _).
  exists context', i. repeat split; try done.
  intros s Hs. apply Hother.
  - intros ->. by apply index_Ok in Hi as [_ Hi].
  - intros Hs'. apply list_elem_of_lookup in Hs as [j Hj], Hs' as [k Hk].
    rewrite lookup_drop in Hk.
    assert (j < i) by (apply lookup_lt_Some in Hj; rewrite length_take in Hj; lia).
    rewrite lookup_take_lt in Hj by lia.
    pose proof (NoDup_lookup _ _ _ _ stages_order_NoDup Hj Hk). lia.
Qed.

Lemma rollback_to_stage_resets_status_witness :
  exists context' i,
    rollback_to_stage "code" failed_context = Ok context' /\
    index "code" stages_order = Ok i /\
    current_stage context' = Some "code" /\
    (forall r, stage_record "code" failed_context = Some r ->
       stage_record "code" context' = Some (<["status" := JStr "in_progress"]> r)) /\
    (forall s r, s ∈ drop (S i) stages_order ->
       stage_record s failed_context = Some r ->
       stage_record s context' = Some (<["status" := JStr "pending"]> r)) /\
    (forall s, s ∈ take i stages_order ->
       stage s context' = stage s failed_context).
Proof.
  apply (rollback_to_stage_resets_status failed_context "code").
  - well_formed_by_compute.
  - stage_of_workflow.
Defined.

(** Rolling back again to the same stage changes nothing, whatever the
    context: the second call succeeds and saves what the first saved. *)
Lemma rollback_to_stage_again target context context' :
  rollback_to_stage target context = Ok context' ->
  rollback_to_stage target context' = Ok context'.
Proof.
  intros (i & top & sts & Hi & -> & Hs & Hall & ->)%rollback_to_stage_inv.
  unfold rolled_back at 1.
  rewrite (rollback_to_stage_total target i _ (rolled_stages target i sts)).
  - f_equal. unfold rolled_back. rewrite rolled_stages_idem by done. f_equal.
    rewrite (insert_insert_ne top "stages" "current_stage") by done.
    rewrite insert_insert_eq.
    rewrite (insert_insert_ne top "current_stage" "stages") by done.
    by rewrite insert_insert_eq.
  - done.
  - by rewrite lookup_insert_eq.
  - eapply Forall_impl; [exact Hall|]. intros s. apply rolled_stages_has_record.
Qed.

(** C7: [rollback_to_stage] is idempotent: on a well-formed context and a
    stage of the workflow it succeeds, and applied again to the context it
    saved it succeeds with that same context. *)
Theorem rollback_to_stage_idempotent context target :
  well_formed context -> target ∈ stages_order ->
  exists context',
    rollback_to_stage target context = Ok context' /\
    rollback_to_stage target context' = Ok context'.
Proof.
  intros Hwf Hin.
  destruct (rollback_to_stage_spec context target Hwf Hin)
    as (context' & i & Hrun & _).
  exists context'. split; [done|]. by eapply rollback_to_stage_again.
Qed.

Lemma rollback_to_stage_idempotent_witness :
  exists context',
    rollback_to_stage "hypothesis" failed_context = Ok context' /\
    rollback_to_stage "hypothesis" context' = Ok context'.
Proof.
  apply (rollback_to_stage_idempotent failed_context "hypothesis").
  - well_formed_by_compute.
  - stage_of_workflow.
Defined.

(** ** Starting mid-workflow *)

Lemma start_from_total target skipped top sts :
  top !! "stages" = Some (JObj sts) ->
  Forall (has_record sts) skipped ->
  start_from target skipped (JObj top) = Ok (started target skipped top sts).
Proof.
  intros Hs Hall. unfold start_from. cbn [setitem bind]. unfold set_status.
  rewrite (for_each_set_field_Ok _ _ _ _ sts); [|by rewrite lookup_insert_ne|done].
  unfold started. do 2 f_equal.
Qed.

Lemma start_from_inv target skipped context context' :
  start_from target skipped context = Ok context' ->
  exists top,
    context = JObj top /\
    (skipped = [] /\ context' = JObj (<["current_stage" := JStr target]> top) \/
     exists sts, top !! "stages" = Some (JObj sts) /\
                 Forall (has_record sts) skipped /\
                 context' = started target skipped top sts).
Proof.
  unfold start_from. intros (c1 & Hset & Hloop)%bind_Ok.
  destruct context as [| | | | |top]; simpl in Hset; try done.
  injection Hset as <-. exists top. split; [done|].
  apply for_each_set_field_inv in Hloop as Hinv.
  destruct Hinv as [[-> <-]|(top' & sts & [= <-] & Hs & Hall)]; [by left|].
  right. rewrite lookup_insert_ne in Hs by done. exists sts.
  split; [done|]. split; [done|].
  pose proof (start_from_total target skipped top sts Hs Hall) as Hrun.
  unfold start_from in Hrun. cbn [setitem bind] in Hrun. congruence.
Qed.

(** What [start_from] does to a well-formed context. *)
Lemma start_from_spec context target skipped :
  well_formed context -> Forall (fun s => s ∈ stages_order) skipped ->
  exists context',
    start_from target skipped context = Ok context' /\
    well_formed context' /\
    current_stage context' = Some target /\
    (forall s r, s ∈ skipped -> stage_record s context = Some r ->
       stage_record s context' = Some (<["status" := JStr "completed"]> r)) /\
    (forall s, s ∉ skipped -> stage s context' = stage s context) /\
    (forall k, k ≠ "stages" -> k ≠ "current_stage" ->
       field k context' = field k context).
Proof.
  intros (top & sts & -> & Hs & Hall) Hsk.
  assert (Forall (has_record sts) skipped) as Hrec.
  { rewrite Forall_forall in *. auto. }
  exists (started target skipped top sts).
  split; [by apply start_from_total|].
  assert (stages (started target skipped top sts) =
          Some (mark "status" (JStr "completed") skipped sts)) as Hst.
  { unfold stages, field, started. by rewrite lookup_insert_eq. }
  assert (forall s, stage s (JObj top) = sts !! s) as Hstage.
  { intros s. unfold stage, stages, field. by rewrite Hs. }
  split; [|split; [|split; [|split]]].
  - eexists _, _. split; [done|]. split; [by rewrite lookup_insert_eq|].
    eapply Forall_impl; [exact Hall|]. intros s. apply mark_has_record.
  - unfold current_stage, field, started.
    by rewrite lookup_insert_ne, lookup_insert_eq.
  - intros s r Hin. rewrite !stage_record_stage. unfold stage at 2.
    rewrite Hst, Hstage, mark_lookup, decide_True by done. by intros ->.
  - intros s Hnot. unfold stage at 1.
    by rewrite Hst, Hstage, mark_lookup, decide_False.
  - intros k H1 H2. unfold field, started. by rewrite !lookup_insert_ne.
Qed.

(** ** [jumpTo] and its guard *)





(** An accepted jump names a stage of the registry and marks the stages
    before it: all of them, as the starts that workflow.md lists skip all
    earlier stages. *)
Lemma jumpTo_Ok reg target assumeCompleted context context' :
  jumpTo reg target assumeCompleted context = Ok context' ->
  exists i,
    index target (all_stages reg) = Ok i /\
    start_from target (take i (all_stages reg)) context = Ok context'.
Proof.
  unfold jumpTo, jump_allowed, attested.
  destruct (index target (all_stages reg)) as [i|]; [|done].
  destruct (forallb _ (take i _)) eqn:Hall; [|done]. simpl.
  destruct (forallb _ (drop i _)); [|done].
  assert (List.filter (fun s => bool_decide (s ∈ assumeCompleted))
            (take i (all_stages reg)) = take i (all_stages reg)) as ->.
  { revert Hall. generalize (take i (all_stages reg)).
    induction l as [|x l IH]; [done|]. simpl.
    destruct (bool_decide (x ∈ assumeCompleted)); [|done].
    simpl. intros Hl. by rewrite IH. }
  destruct (start_from _ _ context) as [c|] eqn:Hstart; [|done].
  intros [= <-]. by exists i.
Qed.

(** The start mid-workflow that the guide shows is the jump to
    [experiment] that attests the three stages before it: the guard
    accepts it, and the jump is the guide's block. *)
Lemma jumpTo_experiment context :
  jumpTo paper_registry "experiment"
    ["literature_review"; "hypothesis"; "code"] context =
  match start_from_experiment context with
  | Ok context' => Ok context'
  | Err _ => Err CorruptRecord
  end.
Proof. reflexivity. Qed.

(** Scenario C of the design: on a fresh pipeline the jump to draft that
    attests search is accepted, search is completed and the pointer is on
    draft. *)
Example scenario_C_jumps :
  exists context',
    jumpTo demo_registry "draft" ["search"]
      (init demo_registry "demo" (obj []) "2024-01-01T00:00:00Z")
      = Ok context' /\
    current_stage context' = Some "draft" /\
    stage_status "search" context' = Some "completed".
Proof.
  eexists. split; [vm_compute; reflexivity|]. split; vm_compute; reflexivity.
Qed.



(** C4 (as stated) fails on the guide's own lines: on a pipeline that has
    been through all stages, the start at [experiment] with the three
    earlier stages marked leaves the later stage [writing] completed, not
    [pending], and the target [experiment] completed, not [pending]. *)
Lemma start_from_resets_nothing :
  exists context',
    start_from_experiment finished_context = Ok context' /\
    current_stage context' = Some "experiment" /\
    stage_status "writing" context' = Some "completed" /\
    stage_status "experiment" context' = Some "completed".
Proof.
  eexists. split; [vm_compute; reflexivity|].
  repeat split; vm_compute; reflexivity.
Qed.

(** C4 (amended): for every well-formed context, every target and every
    list of stages of the workflow to mark, the start succeeds, sets
    [current_stage] to the target, gives every listed stage the status
    [completed] and keeps its other fields, and leaves every stage that is
    neither listed nor the target as it was; later stages are not reset. *)
Theorem start_from_marks_completed context target skipped :
  well_formed context -> Forall (fun s => s ∈ stages_order) skipped ->
  exists context',
    start_from target skipped context = Ok context' /\
    current_stage context' = Some target /\
    (forall s r, s ∈ skipped -> stage_record s context = Some r ->
       stage_record s context' = Some (<["status" := JStr "completed"]> r)) /\
    (forall s, s ∉ skipped -> s ≠ target -> stage s context' = stage s context).
Proof.
  intros Hwf Hsk.
  destruct (start_from_spec context target skipped Hwf Hsk)
    as (context' & Hrun & _ & Hcur & Hmarked & Hother & _).
  exists context'. repeat split; auto.
Qed.

Lemma start_from_marks_completed_witness :
  exists context',
    start_from_experiment example_context = Ok context' /\
    current_stage context' = Some "experiment" /\
    (forall s r, s ∈ ["literature_review"; "hypothesis"; "code"] ->
       stage_record s example_context = Some r ->
       stage_record s context' = Some (<["status" := JStr "completed"]> r)) /\
    (forall s, s ∉ ["literature_review"; "hypothesis"; "code"] ->
       s ≠ "experiment" -> stage s context' = stage s example_context).
Proof.
  apply (start_from_marks_completed example_context "experiment"
           ["literature_review"; "hypothesis"; "code"]).
  - well_formed_by_compute.
  - repeat (constructor; [stage_of_workflow|]). constructor.
Defined.

(** ** [advance] *)

Lemma stage_status_inv cur context st :
  current_stage context = Some cur ->
  stage_status cur context = Some st ->
  exists top sts record,
    context = JObj top /\ stages context = Some sts /\
    sts !! cur = Some (JObj record) /\ status record = Some st.
Proof.
  unfold stage_status, stage_record. intros Hcur.
  destruct context as [| | | | |top]; try done.
  destruct (stages (JObj top)) as [sts|]; [|done].
  destruct (sts !! cur) as [[| | | | |record]|] eqn:Hrec; try done.
  intros Hst. by exists top, sts, record.
Qed.


Lemma output_insert_status v r : output (<["status" := v]> r) = output r.
Proof.
  unfold output. apply map_eq. intros k.
  destruct (decide (k = "status")) as [->|]; [by rewrite !lookup_delete_eq|].
  rewrite !(lookup_delete_ne _ "status") by done.
  destruct (decide (k = "error")) as [->|]; [by rewrite !lookup_delete_eq|].
  by rewrite !(lookup_delete_ne _ "error"), lookup_insert_ne.
Qed.

Lemma output_insert_error v r : output (<["error" := v]> r) = output r.
Proof.
  unfold output. apply map_eq. intros k.
  destruct (decide (k = "status")) as [->|]; [by rewrite !lookup_delete_eq|].
  rewrite !(lookup_delete_ne _ "status") by done.
  destruct (decide (k = "error")) as [->|]; [by rewrite !lookup_delete_eq|].
  by rewrite !(lookup_delete_ne _ "error"), lookup_insert_ne.
Qed.

(** The guide's failure scenario is what "stage failed" records. *)
Example record_failure_experiment :
  record_failure "experiment" (JStr "Runtime error: ...") failed_context
    = Ok failed_context.
Proof. vm_compute. reflexivity. Qed.

(** Scenario A of the design: the output of search passes, search is
    completed and the pointer is on draft. *)
Example scenario_A_advances :
  current_stage scenario_A = Some "draft" /\
  stage_status "search" scenario_A = Some "completed" /\
  stage_status "draft" scenario_A = Some "pending".
Proof. repeat split; vm_compute; reflexivity. Qed.

(** Scenario B: an empty output for draft misses the field text. *)
Example scenario_B_missing :
  validate demo_registry "draft" ∅ = {| ok := false; missing := ["text"] |}.
Proof. vm_compute. reflexivity. Qed.



(** C5: [advance] applies only from [pending] or [in_progress]: from
    either it goes through, and from any other status of the current
    stage, [completed] in particular, it is rejected with
    [InvalidTransition] and the pipeline is left as it was. *)
Theorem advance_only_from_pending_or_in_progress reg context out cur st :
  current_stage context = Some cur ->
  stage_status cur context = Some st ->
  (st = "pending" \/ st = "in_progress" ->
     exists context' r, advance reg context out = Ok (context', r)) /\
  (st ≠ "pending" -> st ≠ "in_progress" ->
     advance reg context out = Err InvalidTransition /\
     after_advance reg context out = context) /\
  (st = "completed" ->
     advance reg context out = Err InvalidTransition /\
     after_advance reg context out = context).
Proof.
  intros Hcur Hst.
  destruct (stage_status_inv cur context st Hcur Hst)
    as (top & sts & record & -> & Hsts & Hrec & Hstatus).
  assert (st ≠ "pending" -> st ≠ "in_progress" ->
          advance reg (JObj top) out = Err InvalidTransition /\
          after_advance reg (JObj top) out = JObj top) as Hrej.
  { intros H1 H2. unfold after_advance, advance.
    rewrite Hcur, Hsts, Hrec, Hstatus.
    assert (may_advance st = false) as ->; [|done].
    unfold may_advance. apply bool_decide_eq_false. by intros [|]. }
  split; [|split; [done|]].
  - intros Hmay. unfold advance. rewrite Hcur, Hsts, Hrec, Hstatus.
    assert (may_advance st = true) as ->.
    { unfold may_advance. by apply bool_decide_eq_true. }
    destruct (ok (validate reg cur out)); by eexists _, _.
  - intros ->. by apply Hrej.
Qed.

Lemma advance_only_from_pending_or_in_progress_witness :
  ("completed" = "pending" \/ "completed" = "in_progress" ->
     exists context' r,
       advance paper_registry example_context ∅ = Ok (context', r)) /\
  ("completed" ≠ "pending" -> "completed" ≠ "in_progress" ->
     advance paper_registry example_context ∅ = Err InvalidTransition /\
     after_advance paper_registry example_context ∅ = example_context) /\
  ("completed" = "completed" ->
     advance paper_registry example_context ∅ = Err InvalidTransition /\
     after_advance paper_registry example_context ∅ = example_context).
Proof.
  apply (advance_only_from_pending_or_in_progress paper_registry
           example_context ∅ "literature_review" "completed").
  - vm_compute. reflexivity.
  - vm_compute. reflexivity.
Defined.

(** ** Schema completeness *)










(** ** ContextStore *)

Lemma pipeline_ok_complete reg context :
  pipeline_ok reg context = true -> schema_complete reg context.
Proof.
  unfold pipeline_ok, schema_complete.
  destruct (stages context) as [sts|]; [|done].
  destruct (current_stage context) as [cur|]; [|done].
  rewrite !andb_true_iff, !bool_decide_eq_true.
  intros [[Hdom Hcur] _]. by exists sts, cur.
Qed.

Lemma pipeline_ok_dict reg context :
  pipeline_ok reg context = true -> exists top, context = JObj top.
Proof.
  unfold pipeline_ok, stages, field. destruct context; try done. eauto.
Qed.

Lemma unversioned_versioned context :
  field "schemaVersion" context = None ->
  unversioned (versioned context) = context.
Proof.
  destruct context as [| | | | |top]; simpl; try done.
  intros Hnone. by rewrite delete_insert_id.
Qed.

Lemma schema_ok_versioned reg context :
  pipeline_ok reg context = true ->
  field "schemaVersion" context = None ->
  schema_ok reg (versioned context) = true.
Proof.
  intros Hok Hnone. unfold schema_ok.
  rewrite (unversioned_versioned _ Hnone), Hok.
  destruct (pipeline_ok_dict _ _ Hok) as [top ->]. simpl.
  by rewrite lookup_insert_eq.
Qed.

(** What [load] returns meets the invariant. *)
Lemma load_schema_complete reg id disk p :
  load reg id disk = Ok p -> schema_complete reg (context_of p).
Proof.
  unfold load. destruct (records disk !! id) as [doc|]; [|done].
  destruct (schema_ok reg doc) eqn:Hok; [|done]. intros [= <-]. simpl.
  unfold schema_ok in Hok. destruct (field "schemaVersion" doc) as [[]|]; try done.
  apply andb_true_iff in Hok as [_ Hok]. by apply pipeline_ok_complete.
Qed.

(** A stored document without [schemaVersion] is not read as a pipeline:
    [load] reports it as corrupt. *)
Lemma load_unversioned_record reg id disk doc :
  records disk !! id = Some doc ->
  field "schemaVersion" doc = None ->
  load reg id disk = Err CorruptRecord.
Proof. intros Hdoc Hnone. unfold load, schema_ok. by rewrite Hdoc, Hnone. Qed.

Lemma exists_after_save p disk :
  exists_ (pipeline_id p) (save NoFault p disk).1 = true.
Proof.
  unfold exists_, save. simpl. apply bool_decide_eq_true.
  rewrite lookup_insert_eq. by eexists.
Qed.

(** A save touches no record but the one of its pipeline. *)
Lemma save_other_records f p disk id :
  id ≠ pipeline_id p ->
  records (save f p disk).1 !! id = records disk !! id.
Proof.
  intros Hne. destruct f as [|[part|]|]; simpl; try done.
  by rewrite lookup_insert_ne.
Qed.

(** C8: for every pipeline that meets the schema of section 3, a save that
    meets no fault succeeds, and [load] then returns a pipeline equal to
    the saved one.  Whatever the disk does during the save, either the
    save succeeds, the stored record is the whole new document, with its
    [schemaVersion], and no other record is touched, or the save fails
    with [IOError] and every record, the pipeline's own included, is what
    it was before: [load] sees no partial write.  A stored document
    without [schemaVersion] is never read as a pipeline. *)
Theorem save_load_round_trip reg p disk :
  pipeline_ok reg (context_of p) = true ->
  field "schemaVersion" (context_of p) = None ->
  (save NoFault p disk).2 = Ok tt /\
  load reg (pipeline_id p) (save NoFault p disk).1 = Ok p /\
  (forall f,
     let (disk', r) := save f p disk in
     (f = NoFault /\ r = Ok tt /\
      (exists doc,
         records disk' !! pipeline_id p = Some doc /\
         field "schemaVersion" doc = Some (JNum schema_version) /\
         unversioned doc = context_of p) /\
      load reg (pipeline_id p) disk' = Ok p /\
      (forall id, id ≠ pipeline_id p ->
         records disk' !! id = records disk !! id)) \/
     (f ≠ NoFault /\ r = Err IOError /\
      records disk' = records disk /\
      (forall id, load reg id disk' = load reg id disk))) /\
  (forall id doc,
     records disk !! id = Some doc ->
     field "schemaVersion" doc = None ->
     load reg id disk = Err CorruptRecord).
Proof.
  intros Hok Hnone.
  assert (load reg (pipeline_id p) (save NoFault p disk).1 = Ok p) as Hload.
  { unfold load. simpl. rewrite lookup_insert_eq.
    rewrite (schema_ok_versioned _ _ Hok Hnone).
    rewrite (unversioned_versioned _ Hnone). by destruct p. }
  split; [done|]. split; [done|].
  split; [|intros id doc; apply load_unversioned_record].
  intros f. destruct (save f p disk) as [disk' r] eqn:Hsave.
  destruct f as [|[part|]|]; simpl in Hsave; injection Hsave as <- <-;
    try (right; by repeat split).
  left. split; [done|]. split; [done|]. split; [|split; [done|]].
  - exists (versioned (context_of p)). simpl.
    split; [by rewrite lookup_insert_eq|].
    split; [|by apply unversioned_versioned].
    destruct (pipeline_ok_dict _ _ Hok) as [top ->]. simpl.
    by rewrite lookup_insert_eq.
  - intros id Hne. simpl. by rewrite lookup_insert_ne.
Qed.

Lemma save_load_round_trip_witness :
  (save NoFault {| pipeline_id := "my-paper"; context_of := failed_context |}
     legacy_disk).2 = Ok tt /\
  load paper_registry "my-paper"
    (save NoFault {| pipeline_id := "my-paper"; context_of := failed_context |}
       legacy_disk).1
    = Ok {| pipeline_id := "my-paper"; context_of := failed_context |} /\
  (forall f,
     let (disk', r) :=
       save f {| pipeline_id := "my-paper"; context_of := failed_context |}
         legacy_disk in
     (f = NoFault /\ r = Ok tt /\
      (exists doc,
         records disk' !! "my-paper" = Some doc /\
         field "schemaVersion" doc = Some (JNum schema_version) /\
         unversioned doc = failed_context) /\
      load paper_registry "my-paper" disk'
        = Ok {| pipeline_id := "my-paper"; context_of := failed_context |} /\
      (forall id, id ≠ "my-paper" ->
         records disk' !! id = records legacy_disk !! id)) \/
     (f ≠ NoFault /\ r = Err IOError /\
      records disk' = records legacy_disk /\
      (forall id, load paper_registry id disk'
                  = load paper_registry id legacy_disk))) /\
  (forall id doc,
     records legacy_disk !! id = Some doc ->
     field "schemaVersion" doc = None ->
     load paper_registry id legacy_disk = Err CorruptRecord).
Proof.
  apply (save_load_round_trip paper_registry
           {| pipeline_id := "my-paper"; context_of := failed_context |}
           legacy_disk).
  - vm_compute. reflexivity.
  - vm_compute. reflexivity.
Defined.

(** ** The fields of the saved record *)

(** C9 (as stated) fails: the context documented in the coordinator's
    SKILL.md has no [schemaVersion], and the record [rollback_to_stage]
    saves from it has none either. *)
Lemma saved_record_without_schemaVersion :
  field "schemaVersion" example_context = None /\
  exists context',
    rollback_to_stage "literature_review" example_context = Ok context' /\
    field "schemaVersion" context' = None.
Proof.
  split; [vm_compute; reflexivity|].
  eexists. split; vm_compute; reflexivity.
Qed.

(** C9 (amended): the operations that save the record, [rollback_to_stage]
    and the start mid-workflow, neither add nor remove a top-level field
    other than the two they write: the saved record has a [schemaVersion]
    field exactly when the loaded record had one, with the same value. *)
Theorem saved_record_keeps_fields context context' :
  (exists target, rollback_to_stage target context = Ok context') \/
  (exists target skipped, start_from target skipped context = Ok context') ->
  field "schemaVersion" context' = field "schemaVersion" context /\
  (forall k, k ≠ "stages" -> k ≠ "current_stage" ->
     field k context' = field k context).
Proof.
  intros Hrun.
  assert (forall k, k ≠ "stages" -> k ≠ "current_stage" ->
            field k context' = field k context) as Hkeep.
  { intros k H1 H2. destruct Hrun as [[target Hrun]|(target & skipped & Hrun)].
    - apply rollback_to_stage_inv in Hrun
        as (i & top & sts & _ & -> & _ & _ & ->).
      unfold field, rolled_back. by rewrite !lookup_insert_ne.
    - apply start_from_inv in Hrun
        as (top & -> & [[_ ->]|(sts & _ & _ & ->)]); unfold field, started;
        by rewrite !lookup_insert_ne. }
  split; [by apply Hkeep|done].
Qed.

Lemma saved_record_keeps_fields_witness :
  field "schemaVersion" after_rollback = field "schemaVersion" after_jump /\
  (forall k, k ≠ "stages" -> k ≠ "current_stage" ->
     field k after_rollback = field k after_jump).
Proof.
  apply (saved_record_keeps_fields after_jump after_rollback).
  left. exists "code". vm_compute. reflexivity.
Defined.

(** ** More on [rollback_to_stage] *)

Lemma index_not_elem_of t l : t ∉ l -> index t l = Err ValueError.
Proof.
  induction l as [|y l IH]; simpl; [done|]. intros Hnot.
  rewrite decide_False by set_solver. rewrite IH; [done|set_solver].
Qed.

Lemma stages_inv context sts :
  stages context = Some sts <->
  exists top, context = JObj top /\ top !! "stages" = Some (JObj sts).
Proof.
  unfold stages, field. split.
  - destruct context as [| | | | |top]; try done.
    destruct (top !! "stages") as [[]|] eqn:Hs; try done.
    intros [= ->]. by exists top.
  - intros (top & -> & ->). done.
Qed.

(** X1: [rollback_to_stage] succeeds exactly when the target is a stage of
    the workflow and the [stages] mapping of the context has a dict for
    the target and for every stage after it; the stages before the target
    need not be there. *)
Theorem rollback_to_stage_succeeds_iff target context :
  (exists context', rollback_to_stage target context = Ok context') <->
  exists i sts,
    index target stages_order = Ok i /\
    stages context = Some sts /\
    Forall (has_record sts) (target :: drop (S i) stages_order).
Proof.
  split.
  - intros [context' (i & top & sts & Hi & -> & Hs & Hall & _)%rollback_to_stage_inv].
    exists i, sts. split; [done|]. split; [|done]. apply stages_inv. eauto.
  - intros (i & sts & Hi & (top & -> & Hs)%stages_inv & Hall).
    exists (rolled_back target i top sts). by apply rollback_to_stage_total.
Qed.

(** X2: a name that is no stage of the workflow is refused with
    [ValueError] before the context is looked at, whatever the context
    is, and nothing is saved. *)
Theorem rollback_to_stage_unknown_stage target context :
  target ∉ stages_order ->
  rollback_to_stage target context = Err ValueError /\
  persisted context (rollback_to_stage target context) = context.
Proof.
  intros Hnot. unfold rollback_to_stage.
  by rewrite (index_not_elem_of _ _ Hnot).
Qed.

Lemma rollback_to_stage_unknown_stage_witness :
  rollback_to_stage "draft" (JStr "not a context") = Err ValueError /\
  persisted (JStr "not a context")
    (rollback_to_stage "draft" (JStr "not a context")) = JStr "not a context".
Proof.
  apply (rollback_to_stage_unknown_stage "draft" (JStr "not a context")).
  unfold stages_order. set_solver.
Defined.

Lemma for_each_set_field_KeyError f v l1 s l2 top sts :
  top !! "stages" = Some (JObj sts) ->
  Forall (has_record sts) l1 ->
  sts !! s = None ->
  for_each (set_field f v) (l1 ++ s :: l2) (JObj top) = Err (KeyError s).
Proof.
  revert top sts. induction l1 as [|x l1 IH]; intros top sts Hs Hall Hnone.
  - simpl. unfold set_field. simpl. rewrite Hs. simpl. by rewrite Hnone.
  - inversion Hall as [|? ? [r Hr] Hall']; subst. simpl.
    assert (set_field f v x (JObj top) =
            Ok (JObj (<["stages" := JObj (alter (assign f v) x sts)]> top))) as ->.
    { apply set_field_Ok. exists top, sts, r.
      by rewrite (set_field_alter f v x sts r). }
    simpl. apply (IH _ (alter (assign f v) x sts)).
    + by rewrite lookup_insert_eq.
    + eapply Forall_impl; [exact Hall'|]. intros y [r' Hr'].
      unfold has_record. destruct (decide (y = x)) as [->|].
      * rewrite lookup_alter_eq, Hr'. simpl. eauto.
      * rewrite lookup_alter_ne by done. eauto.
    + destruct (decide (s = x)) as [->|]; [congruence|].
      by rewrite lookup_alter_ne.
Qed.

(** X3: the stages after the target are reset in workflow order before the
    target is touched: the first of them that has no entry in [stages]
    ends the rollback with a [KeyError] naming it, whatever the entry of
    the target is, and nothing is saved. *)
Theorem rollback_to_stage_missing_stage target i context sts
    (l1 : list string) (s : string) (l2 : list string) :
  index target stages_order = Ok i ->
  stages context = Some sts ->
  drop (S i) stages_order = (l1 ++ s :: l2)%list ->
  Forall (has_record sts) l1 ->
  sts !! s = None ->
  rollback_to_stage target context = Err (KeyError s) /\
  persisted context (rollback_to_stage target context) = context.
Proof.
  intros Hi (top & -> & Hs)%stages_inv Hlater Hall Hnone.
  assert (rollback_to_stage target (JObj top) = Err (KeyError s)) as ->; [|done].
  unfold rollback_to_stage. rewrite Hi. cbn [bind]. rewrite Hlater.
  unfold set_status.
  by rewrite (for_each_set_field_KeyError _ _ l1 s l2 top sts).
Qed.

Lemma rollback_to_stage_missing_stage_witness :
  rollback_to_stage "code" partial_context = Err (KeyError "writing") /\
  persisted partial_context (rollback_to_stage "code" partial_context)
    = partial_context.
Proof.
  apply (rollback_to_stage_missing_stage "code" 2 partial_context
           (default ∅ (stages partial_context))
           ["experiment"] "writing" []).
  - vm_compute. reflexivity.
  - vm_compute. reflexivity.
  - reflexivity.
  - constructor; [|constructor].
    exists (list_to_map [ ("status", JStr "in_progress") ]).
    vm_compute. reflexivity.
  - vm_compute. reflexivity.
Defined.

Lemma set_field_with_current f x s v top :
  set_field f x s (JObj (<["current_stage" := v]> top)) =
    map_ok (with_current v) (set_field f x s (JObj top)).
Proof.
  unfold set_field. simpl. rewrite lookup_insert_ne by done.
  destruct (top !! "stages") as [[| | | | |sts]|]; simpl; try done.
  destruct (sts !! s) as [[| | | | |r]|]; simpl; try done.
  do 2 f_equal. by apply insert_insert_ne.
Qed.

Lemma for_each_with_current f x l v top :
  for_each (set_field f x) l (JObj (<["current_stage" := v]> top)) =
    map_ok (with_current v) (for_each (set_field f x) l (JObj top)).
Proof.
  revert top. induction l as [|s l IH]; intros top; [done|].
  simpl. rewrite set_field_with_current.
  destruct (set_field f x s (JObj top)) as [c1|e] eqn:H1; [|done].
  apply set_field_Ok in H1 as (top' & sts & r & [= <-] & _ & _ & ->).
  simpl. apply IH.
Qed.

Lemma setitem_with_current v x context :
  setitem (with_current v context) "current_stage" x =
    setitem context "current_stage" x.
Proof. destruct context; simpl; try done. by rewrite insert_insert_eq. Qed.

(** X4: [rollback_to_stage] never reads [current_stage]: two contexts that
    differ only there give the same outcome, so a "rollback" to a stage
    after the current one is carried out like any other. *)
Theorem rollback_to_stage_ignores_current target v context :
  rollback_to_stage target (with_current v context) =
    rollback_to_stage target context.
Proof.
  destruct context as [| | | | |top]; try done. simpl with_current.
  unfold rollback_to_stage.
  destruct (index target stages_order) as [i|]; [|done]. cbn [bind].
  unfold set_status. rewrite for_each_with_current.
  destruct (for_each _ _ (JObj top)) as [c1|e]; [|done].
  cbn [map_ok bind]. by rewrite setitem_with_current.
Qed.

Lemma later_stages_subseteq i1 i2 :
  i2 <= i1 -> drop (S i1) stages_order ⊆ drop (S i2) stages_order.
Proof.
  intros Hle s [j Hj]%list_elem_of_lookup. rewrite lookup_drop in Hj.
  apply list_elem_of_lookup. exists (S i1 + j - S i2).
  rewrite lookup_drop. rewrite <- Hj. f_equal. lia.
Qed.

Lemma earlier_target_cases t1 t2 i1 i2 :
  index t1 stages_order = Ok i1 -> index t2 stages_order = Ok i2 ->
  i2 <= i1 -> t1 = t2 \/ t1 ∈ drop (S i2) stages_order.
Proof.
  intros [H1 _]%index_Ok [H2 _]%index_Ok Hle.
  destruct (decide (i1 = i2)) as [->|Hne]; [left; congruence|right].
  apply list_elem_of_lookup. exists (i1 - S i2).
  rewrite lookup_drop. rewrite <- H1. f_equal. lia.
Qed.

Lemma rolled_stages_absorb t1 t2 i1 i2 sts :
  index t1 stages_order = Ok i1 -> index t2 stages_order = Ok i2 ->
  i2 <= i1 ->
  rolled_stages t2 i2 (rolled_stages t1 i1 sts) = rolled_stages t2 i2 sts.
Proof.
  intros H1 H2 Hle. apply map_eq. intros s.
  pose proof (later_stages_subseteq i1 i2 Hle) as Hsub.
  pose proof (earlier_target_cases t1 t2 i1 i2 H1 H2 Hle) as Hcases.
  rewrite (rolled_stages_lookup t2 i2 _ s H2).
  rewrite (rolled_stages_lookup t2 i2 sts s H2).
  rewrite (rolled_stages_lookup t1 i1 sts s H1).
  destruct (decide (s = t2)) as [->|Hs2].
  - destruct (decide (t2 = t1)) as [_|_];
      [|destruct (decide (t2 ∈ drop (S i1) stages_order)) as [Hin|_]].
    + destruct (sts !! t2); simpl; [|done]. by rewrite assign_assign.
    + exfalso. apply Hsub in Hin. by eapply index_not_later.
    + done.
  - destruct (decide (s ∈ drop (S i2) stages_order)) as [Hin|Hnot].
    + repeat case_decide; destruct (sts !! s); simpl; try done;
        by rewrite assign_assign.
    + rewrite decide_False by (intros ->; destruct Hcases; congruence).
      rewrite decide_False; [done|]. intros Hin. by apply Hnot, Hsub.
Qed.

Lemma top_level_again (top : gmap string Json) a b X Y :
  <["stages" := X]> (<["current_stage" := b]>
    (<["stages" := Y]> (<["current_stage" := a]> top))) =
  <["stages" := X]> (<["current_stage" := b]> top).
Proof.
  apply map_eq. intros k.
  destruct (decide (k = "stages")) as [->|]; [by rewrite !lookup_insert_eq|].
  rewrite !(lookup_insert_ne _ "stages") by done.
  destruct (decide (k = "current_stage")) as [->|];
    [by rewrite !lookup_insert_eq|].
  by rewrite !lookup_insert_ne.
Qed.

(** X5: a rollback to a stage, followed by a rollback to the same or an
    earlier stage, saves what the second rollback alone would have saved:
    the later rollback absorbs the earlier one. *)
Theorem rollback_to_stage_absorbs t1 t2 i1 i2 context c1 c2 :
  index t1 stages_order = Ok i1 ->
  index t2 stages_order = Ok i2 ->
  i2 <= i1 ->
  rollback_to_stage t1 context = Ok c1 ->
  rollback_to_stage t2 context = Ok c2 ->
  rollback_to_stage t2 c1 = Ok c2.
Proof.
  intros H1 H2 Hle
    (i1' & top & sts & Hi1 & -> & Hs & Hall1 & ->)%rollback_to_stage_inv
    (i2' & top' & sts' & Hi2 & [= <-] & Hs' & Hall2 & ->)%rollback_to_stage_inv.
  assert (i1' = i1) as -> by congruence. assert (i2' = i2) as -> by congruence.
  assert (sts' = sts) as -> by congruence.
  unfold rolled_back at 1.
  rewrite (rollback_to_stage_total t2 i2 _ (rolled_stages t1 i1 sts)).
  - f_equal. unfold rolled_back.
    by rewrite top_level_again, (rolled_stages_absorb t1 t2 i1 i2).
  - done.
  - by rewrite lookup_insert_eq.
  - eapply Forall_impl; [exact Hall2|]. intros s. apply rolled_stages_has_record.
Qed.

Lemma rollback_to_stage_absorbs_witness :
  rollback_to_stage "hypothesis" after_rollback
    = Ok (persisted after_jump (rollback_to_stage "hypothesis" after_jump)).
Proof.
  apply (rollback_to_stage_absorbs "code" "hypothesis" 2 1 after_jump).
  - vm_compute. reflexivity.
  - vm_compute. reflexivity.
  - lia.
  - vm_compute. reflexivity.
  - vm_compute. reflexivity.
Defined.

(** X6: whatever the context, a rollback that succeeds adds no stage and
    removes none, and in every stage it changes no field but [status]:
    what the stage had produced, and any error recorded for it, stay. *)
Theorem rollback_to_stage_keeps_outputs target context context' :
  rollback_to_stage target context = Ok context' ->
  exists sts sts',
    stages context = Some sts /\
    stages context' = Some sts' /\
    dom sts' = dom sts /\
    forall s r',
      sts' !! s = Some (JObj r') ->
      exists r,
        sts !! s = Some (JObj r) /\
        (forall f, f ≠ "status" -> r' !! f = r !! f) /\
        output r' = output r.
Proof.
  intros (i & top & sts & Hi & -> & Hs & Hall & ->)%rollback_to_stage_inv.
  exists sts, (rolled_stages target i sts).
  split; [apply stages_inv; eauto|].
  split. { unfold stages, field, rolled_back. by rewrite lookup_insert_eq. }
  split; [apply rolled_stages_dom|].
  intros s r'. rewrite rolled_stages_lookup by done.
  assert (forall v,
    assign "status" v <$> sts !! s = Some (JObj r') ->
    exists r, sts !! s = Some (JObj r) /\
      (forall f, f ≠ "status" -> r' !! f = r !! f) /\ output r' = output r)
    as Hassign.
  { intros v. destruct (sts !! s) as [[| | | | |r]|]; simpl; try done.
    intros [= <-]. exists r. split; [done|].
    split; [|apply output_insert_status].
    intros f Hf. by rewrite lookup_insert_ne. }
  repeat case_decide; eauto using Hassign.
Qed.

Lemma rollback_to_stage_keeps_outputs_witness :
  exists sts sts',
    stages after_jump = Some sts /\
    stages after_rollback = Some sts' /\
    dom sts' = dom sts /\
    forall s r',
      sts' !! s = Some (JObj r') ->
      exists r,
        sts !! s = Some (JObj r) /\
        (forall f, f ≠ "status" -> r' !! f = r !! f) /\
        output r' = output r.
Proof.
  apply (rollback_to_stage_keeps_outputs "code" after_jump after_rollback).
  vm_compute. reflexivity.
Defined.

(** ** Recording a failure *)

Lemma record_failure_Ok s e context context' :
  record_failure s e context = Ok context' <->
  exists top sts r,
    context = JObj top /\ top !! "stages" = Some (JObj sts) /\
    sts !! s = Some (JObj r) /\
    context' =
      JObj (<["stages" :=
                JObj (<[s := JObj (<["error" := e]>
                                     (<["status" := JStr "failed"]> r))]> sts)]>
              top).
Proof.
  unfold record_failure, set_status. split.
  - intros (c1 & (top & sts & r & -> & Hs & Hr & ->)%set_field_Ok
               & (top' & sts' & r' & [= <-] & Hs' & Hr' & ->)%set_field_Ok)%bind_Ok.
    rewrite lookup_insert_eq in Hs'. injection Hs' as <-.
    rewrite lookup_insert_eq in Hr'. injection Hr' as <-.
    exists top, sts, r. repeat split; try done.
    by rewrite !insert_insert_eq.
  - intros (top & sts & r & -> & Hs & Hr & ->). apply bind_Ok.
    eexists. split; [apply set_field_Ok; by exists top, sts, r|].
    apply set_field_Ok. eexists _, _, _. split; [done|].
    split; [by rewrite lookup_insert_eq|].
    split; [by rewrite lookup_insert_eq|].
    by rewrite !insert_insert_eq.
Qed.

(** X7: recording the failure of a stage needs a dict for that stage and
    then gives it the status [failed] and the error, keeps what the stage
    had produced, and touches neither another stage nor [current_stage]
    nor any other top-level field. *)
Theorem record_failure_keeps_state s e context context' :
  record_failure s e context = Ok context' ->
  exists r r',
    stage_record s context = Some r /\
    stage_record s context' = Some r' /\
    status r' = Some "failed" /\
    r' !! "error" = Some e /\
    output r' = output r /\
    (forall s', s' ≠ s -> stage s' context' = stage s' context) /\
    (forall k, k ≠ "stages" -> field k context' = field k context).
Proof.
  intros (top & sts & r & -> & Hs & Hr & ->)%record_failure_Ok.
  exists r, (<["error" := e]> (<["status" := JStr "failed"]> r)).
  split. { unfold stage_record, stages, field. by rewrite Hs, Hr. }
  split. { unfold stage_record, stages, field. by rewrite !lookup_insert_eq. }
  split. { unfold status. by rewrite lookup_insert_ne, lookup_insert_eq. }
  split; [by rewrite lookup_insert_eq|].
  split; [by rewrite output_insert_error, output_insert_status|].
  split.
  - intros s' Hne. unfold stage, stages, field.
    by rewrite lookup_insert_eq, Hs, lookup_insert_ne.
  - intros k Hne. unfold field. by rewrite lookup_insert_ne.
Qed.

Lemma record_failure_keeps_state_witness :
  exists r r',
    stage_record "experiment" after_jump = Some r /\
    stage_record "experiment"
      (persisted after_jump
         (record_failure "experiment" (JStr "Runtime error: ...") after_jump))
      = Some r' /\
    status r' = Some "failed" /\
    r' !! "error" = Some (JStr "Runtime error: ...") /\
    output r' = output r /\
    (forall s', s' ≠ "experiment" ->
       stage s'
         (persisted after_jump
            (record_failure "experiment" (JStr "Runtime error: ...") after_jump))
       = stage s' after_jump) /\
    (forall k, k ≠ "stages" ->
       field k
         (persisted after_jump
            (record_failure "experiment" (JStr "Runtime error: ...") after_jump))
       = field k after_jump).
Proof.
  apply (record_failure_keeps_state "experiment" (JStr "Runtime error: ...")
           after_jump).
  vm_compute. reflexivity.
Defined.



(** ** More on the start mid-workflow *)

Lemma mark_same_elements f v l1 l2 (sts : gmap string Json) :
  (forall s, s ∈ l1 <-> s ∈ l2) -> mark f v l1 sts = mark f v l2 sts.
Proof.
  intros Hsame. apply map_eq. intros s. rewrite !mark_lookup.
  destruct (decide (s ∈ l1)) as [H1|H1].
  - rewrite decide_True; [done|by apply Hsame].
  - rewrite decide_False; [done|]. intros H2. by apply H1, Hsame.
Qed.

(** X9: a start mid-workflow that succeeds depends on the stages to mark
    only as a set: listing them in another order, or more than once,
    succeeds as well and saves the same context. *)
Theorem start_from_order_irrelevant target l1 l2 context context' :
  (forall s, s ∈ l1 <-> s ∈ l2) ->
  start_from target l1 context = Ok context' ->
  start_from target l2 context = Ok context'.
Proof.
  intros Hsame (top & -> & Hcases)%start_from_inv.
  destruct Hcases as [[-> ->]|(sts & Hs & Hall & ->)].
  - assert (l2 = []) as ->; [|done].
    destruct l2 as [|x l2]; [done|]. exfalso.
    apply (not_elem_of_nil x), Hsame. by left.
  - rewrite (start_from_total target l2 top sts Hs).
    + unfold started. by rewrite (mark_same_elements _ _ l1 l2).
    + rewrite Forall_forall in *. intros s Hin. by apply Hall, Hsame.
Qed.

Lemma start_from_order_irrelevant_witness :
  start_from "experiment" ["code"; "hypothesis"; "code"; "literature_review"]
    example_context
  = Ok (persisted example_context (start_from_experiment example_context)).
Proof.
  apply (start_from_order_irrelevant "experiment"
           ["literature_review"; "hypothesis"; "code"]
           ["code"; "hypothesis"; "code"; "literature_review"]
           example_context).
  - intros s. rewrite !elem_of_cons, !elem_of_nil. tauto.
  - vm_compute. reflexivity.
Defined.

(** X15: the start mid-workflow succeeds exactly when the context is a
    dict and every stage to mark has a dict in [stages]; with nothing to
    mark it needs no [stages] entry at all, and the stage to start from is
    never looked up. *)
Theorem start_from_succeeds_iff target skipped context :
  (exists context', start_from target skipped context = Ok context') <->
  exists top,
    context = JObj top /\
    (skipped = [] \/
     exists sts, top !! "stages" = Some (JObj sts) /\
                 Forall (has_record sts) skipped).
Proof.
  split.
  - intros [context' (top & -> & Hcases)%start_from_inv].
    exists top. split; [done|].
    destruct Hcases as [[-> _]|(sts & Hs & Hall & _)]; [by left|right].
    by exists sts.
  - intros (top & -> & [->|(sts & Hs & Hall)]).
    + by eexists.
    + eexists. by apply start_from_total.
Qed.

(** ** The handshake *)

Lemma getitem_Ok d k v :
  getitem d k = Ok v <-> exists m, d = JObj m /\ m !! k = Some v.
Proof.
  unfold getitem. split.
  - destruct d as [| | | | |m]; try done.
    destruct (m !! k) eqn:Hk; [|done]. intros [= ->]. by exists m.
  - intros (m & -> & ->). done.
Qed.

(** X10: the handshake succeeds exactly when the hypothesis stage has a
    dict with both [hypotheses] and [variables], and then hands over those
    two values under the origin [literature_review]. *)
Theorem plugin_input_succeeds_iff context input :
  plugin_input context = Ok input <->
  exists r h v,
    stage_record "hypothesis" context = Some r /\
    r !! "hypotheses" = Some h /\
    r !! "variables" = Some v /\
    input = obj [ ("hypothesis", h); ("variables", v);
                  ("from_stage", JStr "literature_review") ].
Proof.
  unfold plugin_input. split.
  - intros (sts & (top & -> & Hs)%getitem_Ok
            & (hd & (m & -> & Hh)%getitem_Ok
            & (h & (r & -> & Hhyp)%getitem_Ok
            & (v & (r' & [= <-] & Hvar)%getitem_Ok & [= <-])%bind_Ok)%bind_Ok)%bind_Ok)%bind_Ok.
    exists r, h, v. repeat split; try done.
    unfold stage_record, stages, field. by rewrite Hs, Hh.
  - intros (r & h & v & Hrec & Hh & Hv & ->).
    unfold stage_record, stages, field in Hrec.
    destruct context as [| | | | |top]; try done.
    destruct (top !! "stages") as [[| | | | |sts]|] eqn:Hs; try done.
    destruct (sts !! "hypothesis") as [[| | | | |r0]|] eqn:Hr; try done.
    injection Hrec as ->. simpl. rewrite Hs. simpl. rewrite Hr. simpl.
    by rewrite Hh, Hv.
Qed.

Lemma plugin_input_set_field f x s context context' :
  f ≠ "hypotheses" -> f ≠ "variables" ->
  set_field f x s context = Ok context' ->
  plugin_input context' = plugin_input context.
Proof.
  intros H1 H2 (top & sts & r & -> & Hs & Hr & ->)%set_field_Ok.
  unfold plugin_input. simpl. rewrite lookup_insert_eq, Hs. simpl.
  destruct (decide (s = "hypothesis")) as [->|Hne].
  - rewrite lookup_insert_eq, Hr. simpl. by rewrite !lookup_insert_ne.
  - by rewrite lookup_insert_ne.
Qed.

Lemma plugin_input_for_each f x l context context' :
  f ≠ "hypotheses" -> f ≠ "variables" ->
  for_each (set_field f x) l context = Ok context' ->
  plugin_input context' = plugin_input context.
Proof.
  intros H1 H2. revert context. induction l as [|s l IH]; intros context.
  - simpl. by intros [= <-].
  - simpl. intros (c1 & Hstep & Hrest)%bind_Ok.
    rewrite (IH _ Hrest). by eapply plugin_input_set_field.
Qed.

Lemma plugin_input_setitem_current v context context' :
  setitem context "current_stage" v = Ok context' ->
  plugin_input context' = plugin_input context.
Proof.
  destruct context as [| | | | |top]; simpl; try done. intros [= <-].
  unfold plugin_input. simpl. by rewrite lookup_insert_ne.
Qed.

(** X11: what the handshake hands to the next plugin survives the
    commands of the guide: after a rollback, a start mid-workflow or a
    recorded failure that succeeded, the handshake gives what it gave
    before, error or input alike. *)
Theorem plugin_input_survives context context' :
  (exists target, rollback_to_stage target context = Ok context') \/
  (exists target skipped, start_from target skipped context = Ok context') \/
  (exists s e, record_failure s e context = Ok context') ->
  plugin_input context' = plugin_input context.
Proof.
  intros [[target Hrun]|[(target & skipped & Hrun)|(s & e & Hrun)]].
  - unfold rollback_to_stage, set_status in Hrun.
    apply bind_Ok in Hrun as (i & _ & (c1 & Hloop & (c2 & Hset & Hlast)%bind_Ok)%bind_Ok).
    rewrite (plugin_input_set_field "status" _ _ _ _ ltac:(done) ltac:(done) Hlast).
    rewrite (plugin_input_setitem_current _ _ _ Hset).
    exact (plugin_input_for_each "status" _ _ _ _ ltac:(done) ltac:(done) Hloop).
  - unfold start_from, set_status in Hrun.
    apply bind_Ok in Hrun as (c1 & Hset & Hloop).
    rewrite (plugin_input_for_each "status" _ _ _ _ ltac:(done) ltac:(done) Hloop).
    by eapply plugin_input_setitem_current.
  - unfold record_failure, set_status in Hrun.
    apply bind_Ok in Hrun as (c1 & H1 & H2).
    rewrite (plugin_input_set_field "error" _ _ _ _ ltac:(done) ltac:(done) H2).
    exact (plugin_input_set_field "status" _ _ _ _ ltac:(done) ltac:(done) H1).
Qed.

Lemma plugin_input_survives_witness :
  plugin_input
    (persisted partial_context
       (record_failure "hypothesis" (JStr "rejected") partial_context))
  = plugin_input partial_context.
Proof.
  apply (plugin_input_survives partial_context).
  right. right. exists "hypothesis", (JStr "rejected").
  vm_compute. reflexivity.
Defined.
(** ** The installers on trees *)

Import Tree.

Lemma node_nested_ind (P : node -> Prop) :
  (forall data, P (File data)) ->
  (forall entries, Forall (fun e => P e.2) entries -> P (Dir entries)) ->
  forall n, P n.
Proof.
  intros Hfile Hdir. fix IH 1. intros [data|entries]; [apply Hfile|].
  apply Hdir. induction entries as [|[name c] rest IHrest]; constructor.
  - apply IH.
  - apply IHrest.
Qed.

Lemma copyDir_Dir entries dest :
  copyDir (Dir entries) dest = copy_entries entries (ensure_dir dest).
Proof.
  simpl. generalize (ensure_dir dest). clear dest.
  induction entries as [|[name entry] rest IH]; intros dest; [done|].
  simpl. destruct dest as [|present]; [done|].
  destruct entry as [data|sub].
  - destruct (child name present) as [[]|]; by rewrite ?IH.
  - destruct (copyDir (Dir sub) (child name present)) as [d [|]]; by rewrite ?IH.
Qed.

Lemma names_unique_Dir entries :
  names_unique (Dir entries) <->
  NoDup entries.*1 /\ Forall (fun e => names_unique e.2) entries.
Proof.
  simpl. apply and_iff_compat_l.
  induction entries as [|[name c] rest IH]; simpl.
  - split; [constructor|done].
  - rewrite Forall_cons, IH. done.
Qed.

Lemma child_put_eq name c entries : child name (put name c entries) = Some c.
Proof.
  induction entries as [|[n c'] rest IH]; simpl.
  - by rewrite decide_True.
  - case_decide; simpl; [by rewrite decide_True|by rewrite decide_False].
Qed.

Lemma child_put_ne n name c entries :
  n ≠ name -> child n (put name c entries) = child n entries.
Proof.
  intros Hne. induction entries as [|[n' c'] rest IH]; simpl.
  - by rewrite decide_False.
  - case_decide; simpl.
    + subst. by rewrite !decide_False.
    + case_decide; [done|apply IH].
Qed.

Lemma child_None name entries : name ∉ entries.*1 -> child name entries = None.
Proof.
  induction entries as [|[n c] rest IH]; simpl; [done|].
  intros Hnot. rewrite decide_False by set_solver. apply IH. set_solver.
Qed.

Lemma child_elem_of name entries c :
  child name entries = Some c -> (name, c) ∈ entries.
Proof.
  induction entries as [|[n c'] rest IH]; simpl; [done|].
  case_decide; [intros [= ->]; subst; set_solver|]. set_solver.
Qed.

Lemma lookup_path_cons n p name entry rest :
  lookup_path (n :: p) (Dir ((name, entry) :: rest)) =
    if decide (n = name) then lookup_path p entry
    else lookup_path (n :: p) (Dir rest).
Proof. simpl. by case_decide. Qed.

Lemma lookup_path_absent name p rest :
  name ∉ rest.*1 -> lookup_path (name :: p) (Dir rest) = None.
Proof. intros Hnot. simpl. by rewrite child_None. Qed.

Lemma lookup_path_put n p name c present :
  lookup_path (n :: p) (Dir (put name c present)) =
    if decide (n = name) then lookup_path p c
    else lookup_path (n :: p) (Dir present).
Proof.
  simpl. case_decide.
  - subst. by rewrite child_put_eq.
  - by rewrite child_put_ne.
Qed.

Lemma lookup_path_ensure_dir p dest data :
  lookup_path p (ensure_dir dest) = Some (File data) ->
  exists c, dest = Some c /\ lookup_path p c = Some (File data).
Proof. destruct dest as [c|]; simpl; [eauto|]. by destruct p. Qed.

Lemma adds_only_refl src d : adds_only src d d.
Proof. intros path data. split; auto. Qed.

(** One entry copied below a directory. *)
Lemma adds_only_put name entry present sub :
  adds_only entry (ensure_dir (child name present)) sub ->
  adds_only (Dir [(name, entry)]) (Dir present) (Dir (put name sub present)).
Proof.
  intros Hsub [|n p] data; [done|].
  rewrite lookup_path_put, lookup_path_cons. case_decide as Hn; [|auto].
  subst. destruct (Hsub p data) as [Hframe Honly]. split.
  - intros Hbefore Hnone. apply Hframe; [|done]. simpl in Hbefore.
    by destruct (child name present).
  - intros Hafter. destruct (Honly Hafter) as [Hb|Hs]; [left|by right].
    apply lookup_path_ensure_dir in Hb as (c & Hc & Hb).
    simpl. by rewrite Hc.
Qed.

Lemma copied_all_put name entry present sub :
  copied_all entry sub ->
  copied_all (Dir [(name, entry)]) (Dir (put name sub present)).
Proof.
  intros Hsub [|n p] data; [done|].
  rewrite lookup_path_put, lookup_path_cons. case_decide; [apply Hsub|done].
Qed.

(** One entry after the other. *)
Lemma adds_only_cons name entry rest d d1 d' :
  name ∉ rest.*1 ->
  adds_only (Dir [(name, entry)]) d d1 ->
  adds_only (Dir rest) d1 d' ->
  adds_only (Dir ((name, entry) :: rest)) d d'.
Proof.
  intros Hnot H1 H2 path data.
  destruct (H1 path data) as [Hf1 Ho1], (H2 path data) as [Hf2 Ho2].
  destruct path as [|n p].
  { split; [intros Hb _; apply Hf2; [apply Hf1|]; done|].
    intros Hafter. destruct (Ho2 Hafter) as [Hd1|]; [|done].
    destruct (Ho1 Hd1); [by left|done]. }
  rewrite lookup_path_cons in *.
  change (lookup_path (n :: p) (Dir [])) with (@None node) in *.
  case_decide as Hn.
  - subst. rewrite (lookup_path_absent name p rest Hnot) in *. split.
    + intros Hb Hnone. apply Hf2; [|done]. by apply Hf1.
    + intros Hafter. destruct (Ho2 Hafter) as [Hd1|]; [|done]. by apply Ho1.
  - split.
    + intros Hb Hnone. apply Hf2; [|done]. by apply Hf1.
    + intros Hafter. destruct (Ho2 Hafter) as [Hd1|]; [|by right].
      destruct (Ho1 Hd1); [by left|done].
Qed.

Lemma copied_all_cons name entry rest d1 d' :
  name ∉ rest.*1 ->
  copied_all (Dir [(name, entry)]) d1 ->
  adds_only (Dir rest) d1 d' ->
  copied_all (Dir rest) d' ->
  copied_all (Dir ((name, entry) :: rest)) d'.
Proof.
  intros Hnot H1 H2 H3 [|n p] data; [done|].
  rewrite lookup_path_cons. case_decide as Hn; [|apply H3].
  subst. intros Hsrc. apply H2.
  - apply H1. rewrite lookup_path_cons. by rewrite decide_True.
  - intros x. by rewrite lookup_path_absent.
Qed.

Lemma copy_entries_sound entries :
  Forall (fun e => copy_sound e.2) entries ->
  NoDup entries.*1 ->
  forall d d' o,
    copy_entries entries d = (d', o) ->
    adds_only (Dir entries) d d' /\ (o = Done -> copied_all (Dir entries) d').
Proof.
  induction entries as [|[name entry] rest IH]; intros Hall Hnodup d d' o.
  { simpl. intros [= <- <-]. split; [apply adds_only_refl|].
    intros _ [|n p] data; done. }
  apply Forall_cons in Hall as [Hentry Hall].
  apply NoDup_cons in Hnodup as [Hnot Hnodup].
  specialize (IH Hall Hnodup). simpl.
  destruct d as [fdata|present].
  { intros [= <- <-]. split; [apply adds_only_refl|done]. }
  assert (forall sub o1,
    adds_only entry (ensure_dir (child name present)) sub ->
    (o1 = Done -> copied_all entry sub) ->
    (match o1 with
     | Done => copy_entries rest (Dir (put name sub present))
     | Thrown => (Dir (put name sub present), Thrown)
     end) = (d', o) ->
    adds_only (Dir ((name, entry) :: rest)) (Dir present) d' /\
    (o = Done -> copied_all (Dir ((name, entry) :: rest)) d')) as Hstep.
  { intros sub o1 Hadds Hcopied Hrun.
    pose proof (adds_only_put name entry present sub Hadds) as Hput.
    destruct o1.
    - destruct (IH _ _ _ Hrun) as [Hrest Hall'].
      split; [by eapply adds_only_cons|].
      intros Hdone. eapply copied_all_cons; eauto.
      by apply copied_all_put, Hcopied.
    - injection Hrun as <- <-. split; [|done].
      eapply adds_only_cons; [done|exact Hput|apply adds_only_refl]. }
  destruct entry as [data|sub_entries].
  - assert (copied_all (File data) (File data)) as Hself by (by intros path x).
    destruct (child name present) as [[cdata|centries]|] eqn:Hchild.
    + intros Hrun. apply (Hstep (File data) Done); [|done|exact Hrun].
      intros [|n p] x; [|done]. simpl. split.
      * intros _ Hnone. by destruct (Hnone data).
      * intros [= ->]. by right.
    + intros [= <- <-]. split; [apply adds_only_refl|done].
    + intros Hrun. apply (Hstep (File data) Done); [|done|exact Hrun].
      intros [|n p] x; [|done]. simpl. split; [done|].
      intros [= ->]. by right.
  - destruct (copyDir (Dir sub_entries) (child name present)) as [sub o1] eqn:Hsub.
    destruct (Hentry _ _ _ Hsub) as [Hadds Hcopied].
    by apply Hstep.
Qed.

Lemma copyDir_sound src : names_unique src -> copy_sound src.
Proof.
  induction src as [data|entries IH] using node_nested_ind;
    intros Huniq dest d' o.
  - simpl. intros [= <- <-]. split; [apply adds_only_refl|done].
  - rewrite copyDir_Dir. apply names_unique_Dir in Huniq as [Hnodup Huniq].
    apply copy_entries_sound; [|done].
    rewrite Forall_forall in *. intros e He. apply IH; [done|]. by apply Huniq.
Qed.

Lemma copied_of_cons skill rest source :
  copied_of (skill :: rest) source =
    match child skill source with
    | Some src => (skill, src) :: copied_of rest source
    | None => copied_of rest source
    end.
Proof. unfold copied_of. simpl. by destruct (child skill source). Qed.

Lemma copied_of_names skills source :
  (copied_of skills source).*1 ⊆ skills.
Proof.
  induction skills as [|skill rest IH]; simpl; [done|].
  unfold copied_of in *. simpl.
  destruct (child skill source); simpl; set_solver.
Qed.

Lemma install_skills_sound skills source :
  NoDup skills ->
  Forall (fun e => names_unique e.2) source ->
  forall d d' o,
    install_skills skills source d = (d', o) ->
    adds_only (Dir (copied_of skills source)) d d' /\
    (o = Done -> copied_all (Dir (copied_of skills source)) d').
Proof.
  intros Hnodup Huniq.
  induction skills as [|skill rest IH]; intros d d' o.
  { simpl. intros [= <- <-]. split; [apply adds_only_refl|].
    intros _ [|n p] data; done. }
  apply NoDup_cons in Hnodup as [Hnot Hnodup]. specialize (IH Hnodup).
  simpl. unfold copied_of. simpl. fold (copied_of rest source).
  destruct (child skill source) as [src|] eqn:Hsrc; simpl; [|apply IH].
  assert (skill ∉ (copied_of rest source).*1) as Hnot'.
  { intros Hin. by apply copied_of_names in Hin. }
  destruct d as [fdata|present].
  { intros [= <- <-]. split; [apply adds_only_refl|done]. }
  destruct (copyDir src (child skill present)) as [sub o1] eqn:Hsub.
  assert (names_unique src) as Hsrc_uniq.
  { apply child_elem_of in Hsrc. rewrite Forall_forall in Huniq.
    by apply (Huniq (skill, src)). }
  destruct (copyDir_sound src Hsrc_uniq _ _ _ Hsub) as [Hadds Hcopied].
  pose proof (adds_only_put skill src present sub Hadds) as Hput.
  destruct o1.
  - intros Hrun. destruct (IH _ _ _ Hrun) as [Hrest Hall'].
    split; [by eapply adds_only_cons|].
    intros Hdone. eapply copied_all_cons; eauto.
    by apply copied_all_put, Hcopied.
  - intros [= <- <-]. split; [|done].
    eapply adds_only_cons; [done|exact Hput|apply adds_only_refl].
Qed.

Lemma lookup_path_copied_of skills source n p :
  lookup_path (n :: p) (Dir (copied_of skills source)) =
    if decide (n ∈ skills) then lookup_path (n :: p) (Dir source) else None.
Proof.
  induction skills as [|skill rest IH]; [done|].
  rewrite copied_of_cons.
  destruct (child skill source) as [src|] eqn:Hsrc.
  - rewrite lookup_path_cons. destruct (decide (n = skill)) as [->|Hne].
    + rewrite decide_True by set_solver. simpl. by rewrite Hsrc.
    + rewrite IH. destruct (decide (n ∈ rest)).
      * rewrite decide_True; [done|set_solver].
      * rewrite decide_False; [done|set_solver].
  - rewrite IH. destruct (decide (n = skill)) as [->|Hne].
    + rewrite (decide_True (P := skill ∈ skill :: rest)) by set_solver.
      simpl. rewrite Hsrc. by case_decide.
    + destruct (decide (n ∈ rest)).
      * rewrite decide_True; [done|set_solver].
      * rewrite decide_False; [done|set_solver].
Qed.

Lemma install_skills_Dir skills source present :
  exists entries, (install_skills skills source (Dir present)).1 = Dir entries.
Proof.
  revert present. induction skills as [|skill rest IH]; intros present;
    simpl; [by eexists|].
  destruct (child skill source) as [src|]; [|apply IH].
  destruct (copyDir src (child skill present)) as [sub [|]]; [apply IH|].
  by eexists.
Qed.

Lemma compatible_None src : compatible src None.
Proof. by destruct src. Qed.

Lemma compatible_Dir entries dest :
  compatible (Dir entries) dest <-> compatible_entries entries (ensure_dir dest).
Proof.
  destruct dest as [[fdata|present]|]; simpl; [done| |].
  - induction entries as [|[name c] rest IH]; [by split; [constructor|]|].
    rewrite Forall_cons, <- IH. done.
  - split; [intros _|done].
    induction entries as [|[name c] rest IH]; constructor; [|done].
    apply compatible_None.
Qed.

Lemma compatible_entries_put entries name c present :
  name ∉ entries.*1 ->
  compatible_entries entries (Dir present) ->
  compatible_entries entries (Dir (put name c present)).
Proof.
  unfold compatible_entries. intros Hnot Hall.
  rewrite Forall_forall in *. intros [n e] He. simpl.
  rewrite child_put_ne; [by apply (Hall (n, e))|].
  intros ->. apply Hnot. apply list_elem_of_fmap. by exists (name, e).
Qed.

Lemma copy_entries_total entries :
  Forall (fun e => forall dest sub,
            e.2 = Dir sub -> compatible e.2 dest -> (copyDir e.2 dest).2 = Done)
         entries ->
  NoDup entries.*1 ->
  forall d, compatible_entries entries d -> (copy_entries entries d).2 = Done.
Proof.
  induction entries as [|[name entry] rest IH]; intros Hall Hnodup d Hcompat;
    [done|].
  apply Forall_cons in Hall as [Hentry Hall].
  apply NoDup_cons in Hnodup as [Hnot Hnodup].
  destruct d as [fdata|present]; [done|].
  apply Forall_cons in Hcompat as [Hc Hrest]. simpl in Hc.
  assert (forall c, (copy_entries rest (Dir (put name c present))).2 = Done)
    as Hnext.
  { intros c. apply IH; [done|done|]. by apply compatible_entries_put. }
  simpl. destruct entry as [data|sub].
  - destruct (child name present) as [[]|]; [apply Hnext|done|apply Hnext].
  - specialize (Hentry (child name present) sub eq_refl Hc).
    cbn [snd] in Hentry.
    destruct (copyDir (Dir sub) (child name present)) as [d1 o1].
    cbn [snd] in Hentry. rewrite Hentry. apply Hnext.
Qed.

Lemma copyDir_total src :
  names_unique src ->
  forall dest sub,
    src = Dir sub -> compatible src dest -> (copyDir src dest).2 = Done.
Proof.
  induction src as [data|entries IH] using node_nested_ind;
    intros Huniq dest sub Hdir Hcompat; [done|].
  rewrite copyDir_Dir. apply names_unique_Dir in Huniq as [Hnodup Huniq].
  apply copy_entries_total; [|done|by apply compatible_Dir].
  rewrite Forall_forall in *. intros e He. apply IH; [done|]. by apply Huniq.
Qed.

Lemma install_skills_total skills source :
  NoDup skills ->
  Forall (fun e => names_unique e.2) source ->
  forall present,
    (forall skill src,
       skill ∈ skills -> child skill source = Some src ->
       (exists entries, src = Dir entries) /\
       compatible src (child skill present)) ->
    (install_skills skills source (Dir present)).2 = Done.
Proof.
  intros Hnodup Huniq.
  induction skills as [|skill rest IH]; intros present Hok; [done|].
  apply NoDup_cons in Hnodup as [Hnot Hnodup]. specialize (IH Hnodup).
  simpl. destruct (child skill source) as [src|] eqn:Hsrc.
  - destruct (Hok skill src) as [[entries ->] Hcompat]; [set_solver|done|].
    assert (names_unique (Dir entries)) as Hsrc_uniq.
    { apply child_elem_of in Hsrc. rewrite Forall_forall in Huniq.
      by apply (Huniq (skill, Dir entries)). }
    pose proof (copyDir_total _ Hsrc_uniq _ _ eq_refl Hcompat) as Hdone.
    destruct (copyDir (Dir entries) (child skill present)) as [sub o1].
    cbn [snd] in Hdone. rewrite Hdone. apply IH. intros skill' src' Hin Hsrc'.
    rewrite child_put_ne by (intros ->; done).
    apply Hok; [set_solver|done].
  - apply IH. intros skill' src' Hin Hsrc'. apply Hok; [set_solver|done].
Qed.

Lemma SKILLS_NoDup : NoDup SKILLS.
Proof. unfold SKILLS. repeat (constructor; [set_solver|]). constructor. Qed.

(** ** [install] on a whole tree *)

Import Scripts.

Lemma find_first {A} (f : A -> bool) (l : list A) x :
  List.find f l = Some x ->
  exists l1 l2,
    l = (l1 ++ x :: l2)%list /\ f x = true /\ Forall (fun y => f y = false) l1.
Proof.
  induction l as [|y l IH]; simpl; [done|].
  destruct (f y) eqn:Hy.
  - intros [= ->]. exists [], l. by repeat split.
  - intros (l1 & l2 & -> & Hx & Hall)%IH.
    exists (y :: l1), l2. repeat split; [done|]. by constructor.
Qed.

Lemma find_nothing {A} (f : A -> bool) (l : list A) :
  List.find f l = None -> Forall (fun y => f y = false) l.
Proof.
  induction l as [|y l IH]; simpl; [constructor|].
  destruct (f y) eqn:Hy; [done|]. intros Hnone. constructor; auto.
Qed.

Lemma lookup_path_app p q n :
  lookup_path (p ++ q) n =
    match lookup_path p n with
    | Some c => lookup_path q c
    | None => None
    end.
Proof.
  revert n. induction p as [|x p IH]; intros n; [done|].
  simpl. destruct n as [|entries]; [done|].
  destruct (child x entries); [apply IH|done].
Qed.

Lemma lookup_path_replace_at p new n d :
  lookup_path p n = Some d ->
  lookup_path p (replace_at p new n) = Some new.
Proof.
  revert n. induction p as [|x p IH]; intros n; [done|].
  simpl. destruct n as [|entries]; [done|].
  destruct (child x entries) as [c|] eqn:Hc; [|done].
  intros Hd. simpl. rewrite child_put_eq. by apply IH.
Qed.

(** Replacing the node at a path changes no file beside it. *)
Lemma lookup_path_replace_other p new n d q x :
  lookup_path p n = Some d ->
  ~ p `prefix_of` q ->
  lookup_path q (replace_at p new n) = Some (File x) <->
  lookup_path q n = Some (File x).
Proof.
  revert n q. induction p as [|a p IH]; intros n q Hd Hpre.
  { destruct Hpre. apply prefix_nil. }
  simpl in Hd. destruct n as [|entries]; [done|].
  destruct (child a entries) as [c|] eqn:Hc; [|done].
  simpl replace_at. rewrite Hc.
  destruct q as [|b q]; [done|].
  rewrite lookup_path_put. case_decide as Hb; [|done].
  subst. simpl. rewrite Hc. apply IH; [done|].
  intros Hp. apply Hpre. by apply prefix_cons.
Qed.

(** [mkdirSync] creates directories only: every file stays, none appears. *)
Lemma mkdir_p_files p n n1 q x :
  mkdir_p p n = Some n1 ->
  lookup_path q n1 = Some (File x) <-> lookup_path q n = Some (File x).
Proof.
  revert n n1 q. induction p as [|a p IH]; intros n n1 q.
  { simpl. destruct n; [done|]. by intros [= <-]. }
  simpl. destruct n as [|entries]; [done|].
  destruct (mkdir_p p (ensure_dir (child a entries))) as [c|] eqn:Hc; [|done].
  intros [= <-]. destruct q as [|b q]; [done|].
  rewrite lookup_path_put. case_decide as Hb; [|done].
  subst. rewrite (IH _ _ q Hc). simpl.
  destruct (child a entries); [done|]. simpl. by destruct q.
Qed.

Lemma mkdir_p_lookup p n n1 :
  mkdir_p p n = Some n1 ->
  lookup_path p n1 = Some (default (Dir []) (lookup_path p n)).
Proof.
  revert n n1. induction p as [|a p IH]; intros n n1.
  { simpl. destruct n; [done|]. by intros [= <-]. }
  simpl. destruct n as [|entries]; [done|].
  destruct (mkdir_p p (ensure_dir (child a entries))) as [c|] eqn:Hc; [|done].
  intros [= <-]. simpl. rewrite child_put_eq, (IH _ _ Hc).
  destruct (child a entries); [done|]. simpl. by destruct p.
Qed.

(** On the whole tree, the install touches the skills directory only: a
    file stays with its content unless it lies in the skills directory at
    a path where a skill found at the source has a file, and every file
    there is afterwards was there before or is such a file of the source.
    This holds however the install ends. *)
Lemma install_at_touches_skills_dir_only skillsDir source root :
  names_unique (Dir source) ->
  forall q data,
    (lookup_path q root = Some (File data) ->
     (forall q' x, q = (skillsDir ++ q')%list ->
        lookup_path q' (copied source) ≠ Some (File x)) ->
     lookup_path q (install_at skillsDir source root).1 = Some (File data)) /\
    (lookup_path q (install_at skillsDir source root).1 = Some (File data) ->
     lookup_path q root = Some (File data) \/
     exists q', q = (skillsDir ++ q')%list /\
                lookup_path q' (copied source) = Some (File data)).
Proof.
  intros [_ Huniq]%names_unique_Dir q data. unfold install_at.
  set (dest := lookup_path skillsDir root).
  destruct (install source dest) as [dest' o] eqn:Hrun.
  unfold install in Hrun.
  destruct (install_skills_sound SKILLS source SKILLS_NoDup Huniq _ _ _ Hrun)
    as [Hadds _].
  assert (forall root1,
    lookup_path skillsDir root1 = Some (ensure_dir dest) ->
    (forall r y, lookup_path r root1 = Some (File y) <->
                 lookup_path r root = Some (File y)) ->
    (lookup_path q root = Some (File data) ->
     (forall q' x, q = (skillsDir ++ q')%list ->
        lookup_path q' (copied source) ≠ Some (File x)) ->
     lookup_path q (replace_at skillsDir dest' root1) = Some (File data)) /\
    (lookup_path q (replace_at skillsDir dest' root1) = Some (File data) ->
     lookup_path q root = Some (File data) \/
     exists q', q = (skillsDir ++ q')%list /\
                lookup_path q' (copied source) = Some (File data))) as Hmain.
  { intros root1 Hdir Hfiles.
    destruct (decide (skillsDir `prefix_of` q)) as [[q' ->]|Hpre].
    - rewrite (lookup_path_app skillsDir q' (replace_at _ _ _)).
      rewrite (lookup_path_replace_at _ _ _ _ Hdir).
      rewrite <- (Hfiles (skillsDir ++ q')%list data).
      rewrite (lookup_path_app skillsDir q' root1), Hdir.
      destruct (Hadds q' data) as [Hframe Honly]. split.
      + intros Hbefore Hnone. apply Hframe; [done|]. intros x. by apply Hnone.
      + intros Hafter. destruct (Honly Hafter) as [?|?]; [by left|right].
        by exists q'.
    - rewrite (lookup_path_replace_other _ _ _ _ q data Hdir Hpre).
      rewrite Hfiles. split; [done|by left]. }
  destruct dest as [d|] eqn:Hdest.
  - apply Hmain; [done|done].
  - destruct (mkdir_p skillsDir root) as [root1|] eqn:Hmk.
    + apply Hmain.
      * rewrite (mkdir_p_lookup _ _ _ Hmk). fold dest. by rewrite Hdest.
      * intros r y. by apply mkdir_p_files with skillsDir.
    + simpl. split; [done|by left].
Qed.

(** ** Installing again, and what an install never does *)

Lemma put_same name c entries :
  child name entries = Some c -> put name c entries = entries.
Proof.
  induction entries as [|[n c'] rest IH]; simpl; [done|].
  case_decide; [by intros [= ->]; subst|]. intros Hc. by rewrite IH.
Qed.

Lemma copy_entries_other name entries present d' o :
  name ∉ entries.*1 ->
  copy_entries entries (Dir present) = (d', o) ->
  exists present', d' = Dir present' /\ child name present' = child name present.
Proof.
  revert present. induction entries as [|[n entry] rest IH]; intros present.
  { simpl. intros _ [= <- <-]. by exists present. }
  intros Hnot. assert (name ≠ n) as Hne by set_solver.
  assert (name ∉ rest.*1) as Hnot' by set_solver.
  assert (forall c, copy_entries rest (Dir (put n c present)) = (d', o) ->
    exists present', d' = Dir present' /\
                     child name present' = child name present) as Hnext.
  { intros c Hrun. destruct (IH _ Hnot' Hrun) as (present' & -> & Hc).
    exists present'. split; [done|]. by rewrite Hc, child_put_ne. }
  simpl. destruct entry as [data|sub].
  - destruct (child n present) as [[]|]; [apply Hnext| |apply Hnext].
    intros [= <- <-]. by exists present.
  - destruct (copyDir (Dir sub) (child n present)) as [c [|]]; [apply Hnext|].
    intros [= <- <-]. eexists. split; [done|]. by rewrite child_put_ne.
Qed.

Lemma copy_entries_settled entries :
  Forall (fun e => copy_settled e.2) entries ->
  NoDup entries.*1 ->
  forall d d',
    copy_entries entries d = (d', Done) -> copy_entries entries d' = (d', Done).
Proof.
  induction entries as [|[name entry] rest IH]; intros Hall Hnodup d d'.
  { simpl. by intros [= <-]. }
  apply Forall_cons in Hall as [Hentry Hall].
  apply NoDup_cons in Hnodup as [Hnot Hnodup].
  specialize (IH Hall Hnodup).
  assert (forall c present,
    copy_entries rest (Dir (put name c present)) = (d', Done) ->
    exists present', d' = Dir present' /\ child name present' = Some c /\
                     copy_entries rest (Dir present') = (Dir present', Done))
    as Hnext.
  { intros c present Hrun.
    destruct (copy_entries_other name rest _ _ _ Hnot Hrun) as (present' & -> & Hc).
    exists present'. split; [done|]. split; [by rewrite Hc, child_put_eq|].
    by eapply IH. }
  simpl. destruct d as [|present]; [done|].
  destruct entry as [data|sub].
  - destruct (child name present) as [[]|] eqn:Hchild; [|done|];
      intros (present' & -> & Hc & Hrest)%Hnext;
      by rewrite Hc, (put_same _ _ _ Hc).
  - destruct (copyDir (Dir sub) (child name present)) as [c [|]] eqn:Hsub; [|done].
    intros (present' & -> & Hc & Hrest)%Hnext.
    apply Hentry in Hsub. cbn [snd] in Hsub.
    rewrite Hc, Hsub. by rewrite (put_same _ _ _ Hc).
Qed.

Lemma copyDir_settled src : names_unique src -> copy_settled src.
Proof.
  induction src as [data|entries IH] using node_nested_ind;
    intros Huniq dest d'; [done|].
  rewrite !copyDir_Dir. apply names_unique_Dir in Huniq as [Hnodup Huniq].
  apply copy_entries_settled; [|done].
  rewrite Forall_forall in *. intros e He. apply IH; [done|]. by apply Huniq.
Qed.

Lemma install_skills_other name skills source present d' o :
  name ∉ skills ->
  install_skills skills source (Dir present) = (d', o) ->
  exists present', d' = Dir present' /\ child name present' = child name present.
Proof.
  revert present. induction skills as [|skill rest IH]; intros present.
  { simpl. intros _ [= <- <-]. by exists present. }
  intros Hnot. assert (name ≠ skill) as Hne by set_solver.
  assert (name ∉ rest) as Hnot' by set_solver.
  simpl. destruct (child skill source) as [src|]; [|by apply IH].
  destruct (copyDir src (child skill present)) as [c [|]].
  - intros Hrun. destruct (IH _ Hnot' Hrun) as (present' & -> & Hc).
    exists present'. split; [done|]. by rewrite Hc, child_put_ne.
  - intros [= <- <-]. eexists. split; [done|]. by rewrite child_put_ne.
Qed.

Lemma install_skills_settled skills source :
  NoDup skills ->
  Forall (fun e => names_unique e.2) source ->
  forall d d',
    install_skills skills source d = (d', Done) ->
    install_skills skills source d' = (d', Done).
Proof.
  intros Hnodup Huniq.
  induction skills as [|skill rest IH]; intros d d'.
  { simpl. by intros [= <-]. }
  apply NoDup_cons in Hnodup as [Hnot Hnodup]. specialize (IH Hnodup).
  simpl. destruct (child skill source) as [src|] eqn:Hsrc; [|apply IH].
  destruct d as [|present]; [done|].
  destruct (copyDir src (child skill present)) as [c [|]] eqn:Hsub; [|done].
  intros Hrun.
  destruct (install_skills_other skill rest _ _ _ _ Hnot Hrun)
    as (present' & -> & Hc).
  rewrite child_put_eq in Hc.
  assert (names_unique src) as Hsrc_uniq.
  { apply child_elem_of in Hsrc. rewrite Forall_forall in Huniq.
    by apply (Huniq (skill, src)). }
  rewrite Hc, (copyDir_settled src Hsrc_uniq _ _ Hsub).
  rewrite (put_same _ _ _ Hc). by eapply IH.
Qed.

(** Installing again changes nothing, on the skills directory as a
    tree. *)
Lemma install_tree_again source skillsDir dest' :
  names_unique (Dir source) ->
  install source skillsDir = (dest', Done) ->
  install source (Some dest') = (dest', Done).
Proof.
  intros [_ Huniq]%names_unique_Dir. unfold install.
  change (ensure_dir (Some dest')) with dest'.
  by apply install_skills_settled; [apply SKILLS_NoDup|].
Qed.

Lemma kept_refl d : kept d d.
Proof. intros path n Hn. by exists n. Qed.

Lemma kept_trans d1 d2 d3 : kept d1 d2 -> kept d2 d3 -> kept d1 d3.
Proof.
  intros H12 H23 path n Hn.
  destruct (H12 path n Hn) as (n2 & Hn2 & Hk2).
  destruct (H23 path n2 Hn2) as (n3 & Hn3 & Hk3).
  exists n3. split; [done|congruence].
Qed.

Lemma kept_put name sub present :
  kept (ensure_dir (child name present)) sub ->
  kept (Dir present) (Dir (put name sub present)).
Proof.
  intros Hsub [|x p] n.
  { simpl. intros [= <-]. by eexists. }
  rewrite lookup_path_put. case_decide as Hx; [|by eexists].
  subst. simpl. destruct (child name present) as [c|]; [|done].
  apply (Hsub p n).
Qed.

Lemma kept_put_file name data present :
  (forall entries, child name present ≠ Some (Dir entries)) ->
  kept (Dir present) (Dir (put name (File data) present)).
Proof.
  intros Hnodir [|x p] n.
  { simpl. intros [= <-]. by eexists. }
  rewrite lookup_path_put. case_decide as Hx; [|by eexists].
  subst. simpl. destruct (child name present) as [[cdata|centries]|]; [| |done].
  - destruct p; [|done]. intros [= <-]. by eexists.
  - by destruct (Hnodir centries).
Qed.

Lemma copy_entries_kept entries :
  Forall (fun e => forall dest d' o,
            copyDir e.2 dest = (d', o) -> kept (ensure_dir dest) d') entries ->
  forall d d' o, copy_entries entries d = (d', o) -> kept d d'.
Proof.
  induction entries as [|[name entry] rest IH]; intros Hall d d' o.
  { simpl. intros [= <- <-]. apply kept_refl. }
  apply Forall_cons in Hall as [Hentry Hall]. specialize (IH Hall).
  simpl. destruct d as [|present]; [intros [= <- <-]; apply kept_refl|].
  destruct entry as [data|sub].
  - destruct (child name present) as [[cdata|centries]|] eqn:Hchild.
    + intros Hrun. eapply kept_trans; [|by eapply IH].
      apply kept_put_file. intros entries. by rewrite Hchild.
    + intros [= <- <-]. apply kept_refl.
    + intros Hrun. eapply kept_trans; [|by eapply IH].
      apply kept_put_file. intros entries. by rewrite Hchild.
  - destruct (copyDir (Dir sub) (child name present)) as [c o1] eqn:Hsub.
    apply Hentry in Hsub. cbn [snd] in Hsub. apply (kept_put name) in Hsub.
    destruct o1.
    + intros Hrun. eapply kept_trans; [exact Hsub|by eapply IH].
    + by intros [= <- <-].
Qed.

Lemma copyDir_kept src dest d' o :
  copyDir src dest = (d', o) -> kept (ensure_dir dest) d'.
Proof.
  revert dest d' o.
  induction src as [data|entries IH] using node_nested_ind; intros dest d' o.
  - simpl. intros [= <- <-]. apply kept_refl.
  - rewrite copyDir_Dir. by apply copy_entries_kept.
Qed.

Lemma install_skills_kept skills source d d' o :
  install_skills skills source d = (d', o) -> kept d d'.
Proof.
  revert d. induction skills as [|skill rest IH]; intros d.
  { simpl. intros [= <- <-]. apply kept_refl. }
  simpl. destruct (child skill source) as [src|]; [|apply IH].
  destruct d as [|present]; [intros [= <- <-]; apply kept_refl|].
  destruct (copyDir src (child skill present)) as [c o1] eqn:Hsub.
  apply copyDir_kept, (kept_put skill) in Hsub.
  destruct o1.
  - intros Hrun. eapply kept_trans; [exact Hsub|by eapply IH].
  - by intros [= <- <-].
Qed.

Lemma install_skills_on_file skills source data :
  install_skills skills source (File data) =
    (File data, match copied_of skills source with [] => Done | _ => Thrown end).
Proof.
  induction skills as [|skill rest IH]; [done|].
  rewrite copied_of_cons. simpl.
  destruct (child skill source); [done|apply IH].
Qed.

(** On a skills path that holds a plain file. *)
Lemma install_tree_on_file source data :
  install source (Some (File data)) =
    (File data,
     match copied_of SKILLS source with [] => Done | _ => Thrown end).
Proof. unfold install. apply install_skills_on_file. Qed.

Lemma mkdir_p_file_on_the_way q r n x :
  lookup_path q n = Some (File x) -> r ≠ [] -> mkdir_p (q ++ r) n = None.
Proof.
  revert n. induction q as [|a q IH]; intros n.
  - simpl. intros [= ->] Hr. by destruct r.
  - simpl. destruct n as [|entries]; [done|].
    destruct (child a entries) as [c|]; [|done].
    intros Hc Hr. simpl. by rewrite (IH _ Hc Hr).
Qed.

(** With a plain file on the way to the skills directory. *)
Lemma install_at_file_on_the_way q r x source root :
  lookup_path q root = Some (File x) ->
  r ≠ [] ->
  install_at (q ++ r) source root = (root, Thrown).
Proof.
  intros Hq Hr. unfold install_at.
  rewrite lookup_path_app, Hq.
  assert (lookup_path r (File x) = None) as -> by (by destruct r).
  by rewrite (mkdir_p_file_on_the_way q r root x Hq Hr).
Qed.


(** ** Writing into a tree *)

Lemma put_put name (c c' : node) entries :
  put name c (put name c' entries) = put name c entries.
Proof.
  induction entries as [|[n x] rest IH]; simpl.
  - by rewrite decide_True.
  - case_decide; simpl.
    + by rewrite decide_True.
    + rewrite decide_False by done. by rewrite IH.
Qed.

Lemma replace_at_same p n d :
  lookup_path p n = Some d -> replace_at p d n = n.
Proof.
  revert n. induction p as [|a p IH]; intros n.
  - simpl. by intros [= ->].
  - simpl. destruct n as [|entries]; [done|].
    destruct (child a entries) as [c|] eqn:Hc; [|done].
    intros Hd. by rewrite (IH _ Hd), (put_same _ _ _ Hc).
Qed.

Lemma replace_at_again p a b n d :
  lookup_path p n = Some d ->
  replace_at p b (replace_at p a n) = replace_at p b n.
Proof.
  revert n. induction p as [|x p IH]; intros n; [done|].
  simpl. destruct n as [|entries]; [done|].
  destruct (child x entries) as [c|] eqn:Hc; [|done].
  intros Hd. simpl. rewrite child_put_eq, put_put. by rewrite (IH _ Hd).
Qed.

(** Replacing an entry of a directory is replacing the directory. *)
Lemma replace_at_entry p name c n present x :
  lookup_path p n = Some (Dir present) ->
  child name present = Some x ->
  replace_at (p ++ [name]) c n = replace_at p (Dir (put name c present)) n.
Proof.
  revert n. induction p as [|a p IH]; intros n.
  - simpl. intros [= ->] Hx. by rewrite Hx.
  - simpl. destruct n as [|entries]; [done|].
    destruct (child a entries) as [sub|] eqn:Hsub; [|done].
    intros Hp Hx. by rewrite (IH _ Hp Hx).
Qed.

Lemma lookup_path_snoc p name n entries :
  lookup_path p n = Some (Dir entries) ->
  lookup_path (p ++ [name]) n = child name entries.
Proof.
  intros Hp. rewrite lookup_path_app, Hp. simpl.
  by destruct (child name entries).
Qed.

Lemma mkdir_p_entry p name n present :
  lookup_path p n = Some (Dir present) ->
  child name present = None ->
  mkdir_p (p ++ [name]) n =
    Some (replace_at p (Dir (put name (Dir []) present)) n).
Proof.
  revert n. induction p as [|a p IH]; intros n.
  - simpl. intros [= ->] Hc. by rewrite Hc.
  - simpl. destruct n as [|entries]; [done|].
    destruct (child a entries) as [sub|] eqn:Hsub; [|done].
    intros Hp Hc. simpl. by rewrite (IH _ Hp Hc).
Qed.

(** [mkdirSync] succeeds when no plain file is on the way. *)
Lemma mkdir_p_succeeds p n :
  (forall q x, q `prefix_of` p -> lookup_path q n ≠ Some (File x)) ->
  exists n1, mkdir_p p n = Some n1.
Proof.
  revert n. induction p as [|a p IH]; intros n Hfree.
  - destruct n as [x|entries]; [|by eexists].
    by destruct (Hfree [] x).
  - destruct n as [x|entries].
    { destruct (Hfree [] x); [apply prefix_nil|done]. }
    simpl. destruct (IH (ensure_dir (child a entries))) as [c ->]; [|by eexists].
    intros q x Hq. destruct (child a entries) as [sub|] eqn:Hsub; simpl.
    + intros Hx. apply (Hfree (a :: q) x); [by apply prefix_cons|].
      simpl. by rewrite Hsub.
    + by destruct q.
Qed.

Lemma kept_replace_at p d d' n :
  lookup_path p n = Some d -> kept d d' -> kept n (replace_at p d' n).
Proof.
  revert n. induction p as [|a p IH]; intros n.
  - simpl. by intros [= ->].
  - simpl. destruct n as [|entries]; [done|].
    destruct (child a entries) as [c|] eqn:Hc; [|done].
    intros Hd Hk. apply (kept_put a). rewrite Hc. simpl. by apply IH.
Qed.

Lemma kept_mkdir_p p n n1 : mkdir_p p n = Some n1 -> kept n n1.
Proof.
  revert n n1. induction p as [|a p IH]; intros n n1.
  - simpl. destruct n; [done|]. intros [= <-]. apply kept_refl.
  - simpl. destruct n as [|entries]; [done|].
    destruct (mkdir_p p (ensure_dir (child a entries))) as [c|] eqn:Hc; [|done].
    intros [= <-]. apply (kept_put a). by apply IH.
Qed.

(** What [install_at] does, in terms of [install] on the skills
    directory. *)
Lemma install_at_inv skillsDir source root root' o :
  install_at skillsDir source root = (root', o) ->
  root' = root /\ o = Thrown /\ lookup_path skillsDir root = None /\
  mkdir_p skillsDir root = None \/
  exists root1 dest',
    (lookup_path skillsDir root = None -> mkdir_p skillsDir root = Some root1) /\
    (is_Some (lookup_path skillsDir root) -> root1 = root) /\
    lookup_path skillsDir root1 = Some (ensure_dir (lookup_path skillsDir root)) /\
    install source (lookup_path skillsDir root) = (dest', o) /\
    root' = replace_at skillsDir dest' root1.
Proof.
  unfold install_at.
  destruct (lookup_path skillsDir root) as [d|] eqn:Hd.
  - destruct (install source (Some d)) as [dest' o'] eqn:Hrun.
    intros [= <- <-]. right. exists root, dest'.
    split; [done|]. split; [done|]. by split.
  - destruct (mkdir_p skillsDir root) as [root1|] eqn:Hmk.
    + destruct (install source None) as [dest' o'] eqn:Hrun.
      intros [= <- <-]. right. exists root1, dest'.
      split; [done|]. split; [by intros [? ?]|]. split; [|done].
      rewrite (mkdir_p_lookup _ _ _ Hmk). by rewrite Hd.
    + intros [= <- <-]. by left.
Qed.

Lemma install_skills_of_none skills source d :
  (forall skill, skill ∈ skills -> child skill source = None) ->
  install_skills skills source d = (d, Done).
Proof.
  induction skills as [|skill rest IH]; intros Hnone; [done|].
  simpl. rewrite (Hnone skill) by set_solver. apply IH.
  intros s Hs. apply Hnone. set_solver.
Qed.

(** Installing again changes nothing, on the whole tree. *)
Lemma install_at_again skillsDir source root root' :
  names_unique (Dir source) ->
  install_at skillsDir source root = (root', Done) ->
  install_at skillsDir source root' = (root', Done).
Proof.
  intros Huniq [(_ & [=] & _)|(root1 & dest' & _ & _ & H1 & Hinst & ->)]%install_at_inv.
  pose proof (lookup_path_replace_at _ dest' _ _ H1) as Hdest.
  unfold install_at. rewrite Hdest.
  rewrite (install_tree_again _ _ _ Huniq Hinst).
  by rewrite (replace_at_same _ _ _ Hdest).
Qed.

(** A skills path that holds a plain file, on the whole tree. *)
Lemma install_at_on_file skillsDir source root data :
  lookup_path skillsDir root = Some (File data) ->
  install_at skillsDir source root =
    (root, match copied_of SKILLS source with [] => Done | _ => Thrown end).
Proof.
  intros Hd. unfold install_at. rewrite Hd, install_tree_on_file.
  by rewrite (replace_at_same _ _ _ Hd).
Qed.

(** Replacing the node at a path changes nothing at a path that parts from
    it. *)
Lemma lookup_path_replace_unrelated c a b p q new n :
  a ≠ b ->
  lookup_path (c ++ b :: q) (replace_at (c ++ a :: p) new n)
  = lookup_path (c ++ b :: q) n.
Proof.
  intros Hne. revert n. induction c as [|x c IH]; intros n.
  - simpl. destruct n as [|entries]; [done|].
    destruct (child a entries) as [sub|]; [|done].
    simpl. by rewrite child_put_ne.
  - simpl. destruct n as [|entries]; [done|].
    destruct (child x entries) as [sub|] eqn:Hsub; [|by rewrite Hsub].
    simpl. rewrite child_put_eq. apply IH.
Qed.

(** The skills directory after an install that met no plain file at it or
    on the way to it. *)
Lemma install_at_creates skillsDir source root :
  (forall q x, q `prefix_of` skillsDir -> lookup_path q root ≠ Some (File x)) ->
  exists entries,
    lookup_path skillsDir (install_at skillsDir source root).1
    = Some (Dir entries).
Proof.
  intros Hfree.
  destruct (install_at skillsDir source root) as [root' o] eqn:Hrun.
  apply install_at_inv in Hrun
    as [(_ & _ & _ & Hmk)|(root1 & dest' & _ & _ & H1 & Hinst & ->)].
  { destruct (mkdir_p_succeeds _ _ Hfree) as [n1 Hn1]. congruence. }
  cbn [fst]. rewrite (lookup_path_replace_at _ _ _ _ H1).
  assert (exists present,
    ensure_dir (lookup_path skillsDir root) = Dir present) as [present Hd0].
  { destruct (lookup_path skillsDir root) as [[x|present]|] eqn:Hd;
      [|by eexists|by eexists].
    by destruct (Hfree skillsDir x). }
  unfold install in Hinst. rewrite Hd0 in Hinst.
  destruct (install_skills_Dir SKILLS source present) as [entries He].
  rewrite Hinst in He. simpl in He. subst. by eexists.
Qed.

(** ** The installers on a file system without links

    On the image of a tree, every function of [Installer] does what its
    counterpart on trees does. *)

Section WithoutLinks.
Import Installer.

Lemma plain_Dir entries : plain (Tree.Dir entries) = Dir (plain_entries entries).
Proof.
  simpl. f_equal. induction entries as [|[name c] rest IH]; [done|].
  by rewrite IH.
Qed.

Lemma child_plain name entries :
  child name (plain_entries entries) = plain <$> Tree.child name entries.
Proof.
  induction entries as [|[n c] rest IH]; [done|]. simpl.
  case_decide; [done|apply IH].
Qed.

Lemma put_plain name c entries :
  put name (plain c) (plain_entries entries)
  = plain_entries (Tree.put name c entries).
Proof.
  induction entries as [|[n c'] rest IH]; [done|]. simpl.
  case_decide; [done|]. simpl. by rewrite IH.
Qed.

Lemma lookup_path_plain path n :
  lookup_path path (plain n) = plain <$> Tree.lookup_path path n.
Proof.
  revert n. induction path as [|name path IH]; intros n; [done|].
  destruct n as [data|entries]; [done|]. rewrite plain_Dir. simpl.
  rewrite child_plain. destruct (Tree.child name entries); [apply IH|done].
Qed.

Lemma plain_not_Link n target : plain n ≠ Link target.
Proof. by destruct n. Qed.

(** Path resolution on a tree is the lookup. *)
Lemma walk_plain_Found follow real n path m :
  Tree.lookup_path path n = Some m ->
  walk follow real (plain n) path = Found (real ++ path) (plain m).
Proof.
  revert real n. induction path as [|name path IH]; intros real n.
  - simpl. intros [= ->]. by rewrite app_nil_r.
  - destruct n as [data|entries]; [done|]. rewrite plain_Dir. simpl.
    rewrite child_plain. destruct (Tree.child name entries) as [c|]; [|done].
    simpl. intros Hm. rewrite (IH _ _ Hm), <- app_assoc.
    by destruct (plain c) eqn:Hc; [| |destruct (plain_not_Link _ _ Hc)].
Qed.

Lemma walk_plain_None follow real n path :
  Tree.lookup_path path n = None ->
  forall real' m, walk follow real (plain n) path ≠ Found real' m.
Proof.
  revert real n. induction path as [|name path IH]; intros real n; [done|].
  destruct n as [data|entries]; [done|]. rewrite plain_Dir. simpl.
  rewrite child_plain. destruct (Tree.child name entries) as [c|]; simpl.
  - intros Hnone real' m.
    destruct (plain c) eqn:Hc; [| |destruct (plain_not_Link _ _ Hc)];
      rewrite <- Hc; by apply IH.
  - intros _ real' m. by destruct path.
Qed.

Lemma walk_plain_Absent follow real n path name entries :
  Tree.lookup_path path n = Some (Tree.Dir entries) ->
  Tree.child name entries = None ->
  walk follow real (plain n) (path ++ [name]) = Absent (real ++ path) name.
Proof.
  revert real n. induction path as [|x path IH]; intros real n.
  - simpl. intros [= ->]. rewrite plain_Dir. simpl.
    rewrite child_plain. intros ->. by rewrite app_nil_r.
  - destruct n as [data|es]; [done|]. rewrite plain_Dir. simpl.
    rewrite child_plain. destruct (Tree.child x es) as [c|]; [|done].
    simpl. intros Hl Hc. rewrite (IH _ _ Hl Hc), <- app_assoc.
    by destruct (plain c) eqn:Hpc; [| |destruct (plain_not_Link _ _ Hpc)].
Qed.

Lemma walk_plain_below_file follow real n path data rest :
  Tree.lookup_path path n = Some (Tree.File data) ->
  rest ≠ [] ->
  walk follow real (plain n) (path ++ rest) = Unresolved.
Proof.
  revert real n. induction path as [|x path IH]; intros real n.
  - simpl. intros [= ->] Hrest. by destruct rest.
  - destruct n as [d|es]; [done|]. rewrite plain_Dir. simpl.
    rewrite child_plain. destruct (Tree.child x es) as [c|]; [|done].
    simpl. intros Hl Hrest. rewrite (IH _ _ Hl Hrest).
    by destruct (plain c) eqn:Hpc; [| |destruct (plain_not_Link _ _ Hpc)].
Qed.

Lemma resolve_walk fuel root path :
  resolve fuel root path =
    walk (match fuel with
          | 0 => fun _ => Unresolved
          | S fuel' => resolve fuel' root
          end) [] root path.
Proof. by destruct fuel. Qed.

Lemma stat_plain_Found root path m :
  Tree.lookup_path path root = Some m ->
  stat (plain root) path = Found path (plain m).
Proof.
  intros Hm. unfold stat. rewrite resolve_walk.
  by rewrite (walk_plain_Found _ [] _ _ _ Hm).
Qed.

Lemma stat_plain_Absent root path name entries :
  Tree.lookup_path path root = Some (Tree.Dir entries) ->
  Tree.child name entries = None ->
  stat (plain root) (path ++ [name]) = Absent path name.
Proof.
  intros Hp Hc. unfold stat. rewrite resolve_walk.
  by rewrite (walk_plain_Absent _ [] _ _ _ _ Hp Hc).
Qed.

Lemma stat_plain_below_file root path data rest :
  Tree.lookup_path path root = Some (Tree.File data) ->
  rest ≠ [] ->
  stat (plain root) (path ++ rest) = Unresolved.
Proof.
  intros Hp Hrest. unfold stat. rewrite resolve_walk.
  by rewrite (walk_plain_below_file _ [] _ _ _ _ Hp Hrest).
Qed.

Lemma existsSync_plain root path :
  existsSync (plain root) path = Scripts.existsSync root path.
Proof.
  unfold existsSync, Scripts.existsSync.
  destruct (Tree.lookup_path path root) as [m|] eqn:Hm.
  - rewrite (stat_plain_Found _ _ _ Hm). symmetry. by apply bool_decide_eq_true.
  - unfold stat. rewrite resolve_walk.
    pose proof (walk_plain_None (resolve 39 (plain root)) [] root path Hm) as Hnot.
    simpl. destruct (walk _ [] (plain root) path) as [r m| |] eqn:Hw.
    + by destruct (Hnot r m).
    + done.
    + done.
Qed.

Lemma store_cons name rest new entries :
  rest ≠ [] ->
  store (name :: rest) new (Dir entries) =
    match child name entries with
    | Some c => Dir (put name (store rest new c) entries)
    | None => Dir entries
    end.
Proof. by destruct rest. Qed.

Lemma store_plain p name c n present :
  Tree.lookup_path p n = Some (Tree.Dir present) ->
  store (p ++ [name]) (plain c) (plain n) =
    plain (Scripts.replace_at p (Tree.Dir (Tree.put name c present)) n).
Proof.
  revert n. induction p as [|a p IH]; intros n.
  - simpl app. intros [= ->]. simpl Scripts.replace_at.
    rewrite !plain_Dir. simpl. by rewrite put_plain.
  - destruct n as [|entries]; [done|].
    simpl Tree.lookup_path. simpl Scripts.replace_at.
    destruct (Tree.child a entries) as [sub|] eqn:Hsub; [|done].
    intros Hp. rewrite !plain_Dir.
    change ((a :: p) ++ [name])%list with (a :: (p ++ [name]))%list.
    rewrite store_cons by (by destruct p).
    rewrite child_plain, Hsub. simpl. rewrite (IH _ Hp).
    by rewrite put_plain.
Qed.

Lemma mkdir_from_plain root done rest entries :
  Tree.lookup_path done root = Some (Tree.Dir entries) ->
  mkdir_from (plain root) done rest =
    (fun n' => plain (Scripts.replace_at done n' root))
      <$> Scripts.mkdir_p rest (Tree.Dir entries).
Proof.
  revert root done entries.
  induction rest as [|name rest IH]; intros root done entries Hdone.
  { simpl. by rewrite (replace_at_same _ _ _ Hdone). }
  simpl mkdir_from. rewrite (stat_plain_Found _ _ _ Hdone), plain_Dir.
  rewrite child_plain. simpl Scripts.mkdir_p.
  destruct (Tree.child name entries) as [c|] eqn:Hc; simpl.
  - pose proof (lookup_path_snoc _ name _ _ Hdone) as Hsnoc.
    rewrite Hc in Hsnoc. rewrite (stat_plain_Found _ _ _ Hsnoc).
    destruct c as [data|sub].
    + simpl. by destruct rest.
    + rewrite plain_Dir. rewrite (IH _ _ _ Hsnoc).
      destruct (Scripts.mkdir_p rest (Tree.Dir sub)) as [n'|]; [|done].
      simpl. by rewrite (replace_at_entry _ _ _ _ _ _ Hdone Hc).
  - change (Dir []) with (plain (Tree.Dir [])).
    rewrite (store_plain _ _ _ _ _ Hdone).
    set (root1 := Scripts.replace_at done
                    (Tree.Dir (Tree.put name (Tree.Dir []) entries)) root).
    assert (Tree.lookup_path done root1 =
            Some (Tree.Dir (Tree.put name (Tree.Dir []) entries))) as Hdone1.
    { by apply lookup_path_replace_at with (Tree.Dir entries). }
    assert (Tree.lookup_path (done ++ [name]) root1 = Some (Tree.Dir [])) as Hnew.
    { rewrite (lookup_path_snoc _ _ _ _ Hdone1). apply child_put_eq. }
    rewrite (IH _ _ _ Hnew).
    destruct (Scripts.mkdir_p rest (Tree.Dir [])) as [n'|]; [|done]. simpl.
    rewrite (replace_at_entry _ _ _ _ _ (Tree.Dir []) Hdone1)
      by apply child_put_eq.
    unfold root1. rewrite put_put.
    by rewrite (replace_at_again _ _ _ _ _ Hdone).
Qed.

Lemma mkdirSync_plain root path :
  path ≠ [] ->
  mkdirSync (plain root) path = plain <$> Scripts.mkdir_p path root.
Proof.
  intros Hpath. unfold mkdirSync. destruct root as [data|entries].
  - destruct path as [|name rest]; [done|]. cbn [mkdir_from].
    by rewrite (stat_plain_Found (Tree.File data) [] (Tree.File data)).
  - rewrite (mkdir_from_plain _ [] path entries) by done.
    by destruct (Scripts.mkdir_p path (Tree.Dir entries)).
Qed.

(** [if (!fs.existsSync(dest)) fs.mkdirSync(dest, ...)] for an entry of a
    directory that exists. *)
Lemma ensure_dir_plain p name root present :
  Tree.lookup_path p root = Some (Tree.Dir present) ->
  ensure_dir (p ++ [name]) (plain root) =
    Some (plain (Scripts.replace_at p
                   (Tree.Dir (Tree.put name
                                (Tree.ensure_dir (Tree.child name present))
                                present)) root)).
Proof.
  intros Hp. unfold ensure_dir. rewrite existsSync_plain.
  unfold Scripts.existsSync. rewrite (lookup_path_snoc _ name _ _ Hp).
  destruct (Tree.child name present) as [c|] eqn:Hc.
  - rewrite bool_decide_eq_true_2 by eauto. simpl.
    by rewrite (put_same _ _ _ Hc), (replace_at_same _ _ _ Hp).
  - rewrite bool_decide_eq_false_2 by (by intros []).
    rewrite mkdirSync_plain by (by destruct p).
    by rewrite (mkdir_p_entry _ _ _ _ Hp Hc).
Qed.

Lemma ensure_dir_below_file p name root data :
  Tree.lookup_path p root = Some (Tree.File data) ->
  ensure_dir (p ++ [name]) (plain root) = None.
Proof.
  intros Hp. unfold ensure_dir. rewrite existsSync_plain.
  unfold Scripts.existsSync. rewrite lookup_path_app, Hp.
  rewrite bool_decide_eq_false_2 by (by intros []).
  rewrite mkdirSync_plain by (by destruct p).
  by rewrite (mkdir_p_file_on_the_way p [name] root data Hp).
Qed.

Lemma copyFileSync_plain data p name root present :
  Tree.lookup_path p root = Some (Tree.Dir present) ->
  copyFileSync data (p ++ [name]) (plain root) =
    match Tree.child name present with
    | Some (Tree.Dir _) => None
    | _ => Some (plain (Scripts.replace_at p
                          (Tree.Dir (Tree.put name (Tree.File data) present))
                          root))
    end.
Proof.
  intros Hp. unfold copyFileSync.
  pose proof (lookup_path_snoc _ name _ _ Hp) as Hsnoc.
  change (File data) with (plain (Tree.File data)).
  destruct (Tree.child name present) as [[x|sub]|] eqn:Hc.
  - rewrite (stat_plain_Found _ _ _ Hsnoc). simpl plain at 1.
    by rewrite (store_plain _ _ _ _ _ Hp).
  - rewrite (stat_plain_Found _ _ _ Hsnoc). by rewrite plain_Dir.
  - rewrite (stat_plain_Absent _ _ _ _ Hp Hc).
    by rewrite (store_plain _ _ _ _ _ Hp).
Qed.

Lemma copyFileSync_below_file data' p name root data :
  Tree.lookup_path p root = Some (Tree.File data) ->
  copyFileSync data' (p ++ [name]) (plain root) = None.
Proof.
  intros Hp. unfold copyFileSync.
  by rewrite (stat_plain_below_file _ _ _ [name] Hp).
Qed.

Lemma copyDir_unfold src dest root :
  copyDir src dest root =
    match ensure_dir dest root with
    | None => (root, Thrown)
    | Some root1 =>
        match src with
        | Tree.File _ => (root1, Thrown)
        | Tree.Dir entries => copy_entries entries dest root1
        end
    end.
Proof.
  destruct src as [data|entries]; simpl.
  - by destruct (ensure_dir dest root).
  - destruct (ensure_dir dest root) as [root1|]; [|done].
    revert root1. induction entries as [|[name entry] rest IH]; intros root1;
      [done|].
    simpl. destruct entry as [data|sub].
    + destruct (copyFileSync data _ root1); [apply IH|done].
    + destruct (copyDir (Tree.Dir sub) _ root1) as [root' [|]]; [apply IH|done].
Qed.

Lemma copy_entries_plain entries :
  Forall (fun e => copies_as_tree e.2) entries ->
  forall p root d,
    Tree.lookup_path p root = Some d ->
    copy_entries entries p (plain root) =
      let (d', o) := Tree.copy_entries entries d in
      (plain (Scripts.replace_at p d' root), o).
Proof.
  induction entries as [|[name entry] rest IH]; intros Hall p root d Hp.
  { simpl. by rewrite (replace_at_same _ _ _ Hp). }
  apply Forall_cons in Hall as [Hentry Hall]. specialize (IH Hall).
  cbn [snd] in Hentry.
  destruct d as [x|present].
  { simpl. rewrite (replace_at_same _ _ _ Hp). destruct entry as [data|sub].
    - by rewrite (copyFileSync_below_file _ _ _ _ _ Hp).
    - by rewrite copyDir_unfold, (ensure_dir_below_file _ _ _ _ Hp). }
  assert (forall c,
    copy_entries rest p
      (plain (Scripts.replace_at p (Tree.Dir (Tree.put name c present)) root)) =
    let (d', o) := Tree.copy_entries rest (Tree.Dir (Tree.put name c present)) in
    (plain (Scripts.replace_at p d' root), o)) as Hnext.
  { intros c.
    rewrite (IH p _ (Tree.Dir (Tree.put name c present)))
      by (by eapply lookup_path_replace_at).
    destruct (Tree.copy_entries rest _) as [d' o].
    by rewrite (replace_at_again _ _ _ _ _ Hp). }
  simpl. destruct entry as [data|sub].
  - rewrite (copyFileSync_plain _ _ _ _ _ Hp).
    destruct (Tree.child name present) as [[x|centries]|] eqn:Hc.
    + apply Hnext.
    + by rewrite (replace_at_same _ _ _ Hp).
    + apply Hnext.
  - rewrite (Hentry _ _ _ _ Hp).
    destruct (Tree.copyDir (Tree.Dir sub) (Tree.child name present))
      as [sub' [|]]; [apply Hnext|done].
Qed.

Lemma copyDir_plain src : copies_as_tree src.
Proof.
  induction src as [data|entries IH] using node_nested_ind;
    intros p name root present Hp; rewrite copyDir_unfold;
    rewrite (ensure_dir_plain _ _ _ _ Hp).
  - done.
  - set (d0 := Tree.ensure_dir (Tree.child name present)).
    set (root1 := Scripts.replace_at p
                    (Tree.Dir (Tree.put name d0 present)) root).
    assert (Tree.lookup_path p root1 = Some (Tree.Dir (Tree.put name d0 present)))
      as Hp1 by (by eapply lookup_path_replace_at).
    assert (Tree.lookup_path (p ++ [name]) root1 = Some d0) as Hd0.
    { rewrite (lookup_path_snoc _ _ _ _ Hp1). apply child_put_eq. }
    rewrite (copy_entries_plain entries IH _ _ _ Hd0).
    rewrite copyDir_Dir. fold d0.
    destruct (Tree.copy_entries entries d0) as [d' o].
    rewrite (replace_at_entry _ _ _ _ _ d0 Hp1) by apply child_put_eq.
    unfold root1. by rewrite put_put, (replace_at_again _ _ _ _ _ Hp).
Qed.

Lemma install_skills_plain skills source p root d :
  Tree.lookup_path p root = Some d ->
  install_skills skills p source (plain root) =
    let (d', o) := Tree.install_skills skills source d in
    (plain (Scripts.replace_at p d' root), o).
Proof.
  revert root d. induction skills as [|skill rest IH]; intros root d Hp.
  { simpl. by rewrite (replace_at_same _ _ _ Hp). }
  simpl. destruct (Tree.child skill source) as [src|]; [|by apply IH].
  destruct d as [x|present].
  { rewrite copyDir_unfold, (ensure_dir_below_file _ _ _ _ Hp).
    by rewrite (replace_at_same _ _ _ Hp). }
  rewrite (copyDir_plain src _ _ _ _ Hp).
  destruct (Tree.copyDir src (Tree.child skill present)) as [sub [|]]; [|done].
  rewrite (IH _ (Tree.Dir (Tree.put skill sub present)))
    by (by eapply lookup_path_replace_at).
  destruct (Tree.install_skills rest source _) as [d' o].
  by rewrite (replace_at_again _ _ _ _ _ Hp).
Qed.

(** On a file system without links, [install] is the installer on
    trees. *)
Lemma install_plain skillsDir source root :
  install skillsDir source (plain root) =
    let (root', o) := Scripts.install_at skillsDir source root in
    (plain root', o).
Proof.
  unfold install, ensure_dir, Scripts.install_at, Tree.install.
  rewrite existsSync_plain. unfold Scripts.existsSync.
  destruct (Tree.lookup_path skillsDir root) as [d|] eqn:Hd.
  - rewrite bool_decide_eq_true_2 by eauto.
    rewrite (install_skills_plain _ _ _ _ _ Hd).
    change (Tree.ensure_dir (Some d)) with d.
    by destruct (Tree.install_skills SKILLS source d).
  - rewrite bool_decide_eq_false_2 by (by intros []).
    rewrite mkdirSync_plain by (by destruct skillsDir).
    destruct (Scripts.mkdir_p skillsDir root) as [root1|] eqn:Hmk; [|done].
    cbn [fmap option_fmap option_map].
    pose proof (mkdir_p_lookup _ _ _ Hmk) as Hnew.
    rewrite Hd in Hnew. cbn [default] in Hnew.
    rewrite (install_skills_plain _ _ _ _ _ Hnew).
    change (Tree.ensure_dir None) with (Tree.Dir []).
    by destruct (Tree.install_skills SKILLS source (Tree.Dir [])).
Qed.

End WithoutLinks.

(** ** What an install adds, and what it leaves alone *)

(** C10 (as stated) fails on a file system with links: [copyFileSync]
    writes through a link at the destination.  In a skills directory where
    [paper-code/SKILL.md] is a link to [paper-code/notes.txt], the install
    ends normally and has overwritten the notes with the skill's text,
    although the source has no [paper-code/notes.txt]. *)
Lemma install_writes_through_link :
  exists root',
    Installer.install ["skills"] demo_source Installer.linked_root = (root', Done) /\
    Installer.lookup_path ["skills"; "paper-code"; "notes.txt"] Installer.linked_root
      = Some (Installer.File "mine") /\
    lookup_path ["paper-code"; "notes.txt"] (Dir demo_source) = None /\
    Installer.lookup_path ["skills"; "paper-code"; "notes.txt"] root'
      = Some (Installer.File "code skill").
Proof.
  eexists. split; [vm_compute; reflexivity|].
  split; [reflexivity|]. split; reflexivity.
Qed.

(** C10 (amended): on every file system without links, with source
    directories that list each name once, [install] leaves a file system
    without links in which: the skills directory exists as a directory
    whenever no plain file lay at it or on the way to it; the install ends
    normally whenever, besides, no skill it finds is a plain file or meets
    an entry of the other kind, a skill that is missing at the source
    being skipped; when no skill is found nothing changes; when it ends
    normally every file of the skills found at the source is at the same
    path below the skills directory, with the source's content; every
    file there is afterwards was there before, or is a file of one of the
    six skills at the source, below the skills directory; every file,
    anywhere, with no file at its path in the skills found at the source
    keeps its content; and nothing is removed, a directory staying a
    directory and a file a file.  The last three hold however the install
    ended. *)
Theorem install_is_additive skillsDir source root :
  names_unique (Dir source) ->
  exists root' o,
    Installer.install skillsDir source (Installer.plain root) = (Installer.plain root', o) /\
    ((forall q x, q `prefix_of` skillsDir -> lookup_path q root ≠ Some (File x)) ->
     exists entries, lookup_path skillsDir root' = Some (Dir entries)) /\
    (installable skillsDir source root -> o = Done) /\
    ((forall skill, skill ∈ SKILLS -> child skill source = None) ->
     is_Some (lookup_path skillsDir root) -> root' = root /\ o = Done) /\
    (o = Done ->
     forall skill path data,
       skill ∈ SKILLS ->
       lookup_path (skill :: path) (Dir source) = Some (File data) ->
       lookup_path (skillsDir ++ skill :: path) root' = Some (File data)) /\
    (forall q data,
       lookup_path q root' = Some (File data) ->
       lookup_path q root = Some (File data) \/
       exists skill path,
         q = (skillsDir ++ skill :: path)%list /\ skill ∈ SKILLS /\
         lookup_path (skill :: path) (Dir source) = Some (File data)) /\
    (forall q data,
       lookup_path q root = Some (File data) ->
       (forall skill path x,
          q = (skillsDir ++ skill :: path)%list -> skill ∈ SKILLS ->
          lookup_path (skill :: path) (Dir source) ≠ Some (File x)) ->
       lookup_path q root' = Some (File data)) /\
    (forall q n,
       lookup_path q root = Some n ->
       exists n', lookup_path q root' = Some n' /\ is_dir n' = is_dir n).
Proof.
  intros Huniq.
  pose proof (install_at_touches_skills_dir_only skillsDir source root Huniq)
    as Htouch.
  apply names_unique_Dir in Huniq as [_ Huniq].
  destruct (install_at skillsDir source root) as [root' o] eqn:Hrun.
  exists root', o. split; [by rewrite install_plain, Hrun|].
  cbn [fst] in Htouch.
  apply install_at_inv in Hrun as Hinv.
  split; [|split; [|split; [|split; [|split; [|split]]]]].
  - intros Hfree.
    pose proof (install_at_creates _ source _ Hfree) as Hcreated.
    by rewrite Hrun in Hcreated.
  - intros [Hfree Hok].
    destruct Hinv as [(_ & _ & _ & Hmk)|(root1 & dest' & _ & _ & H1 & Hinst & ->)].
    { destruct (mkdir_p_succeeds _ _ Hfree) as [n1 Hn1]. congruence. }
    unfold install in Hinst.
    assert (exists present,
      ensure_dir (lookup_path skillsDir root) = Dir present /\
      forall skill, lookup_path (skillsDir ++ [skill]) root = child skill present)
      as (present & Hd0 & Hchild).
    { destruct (lookup_path skillsDir root) as [[x|present]|] eqn:Hd.
      - by destruct (Hfree skillsDir x).
      - exists present. split; [done|]. intros skill.
        by apply lookup_path_snoc.
      - exists []. split; [done|]. intros skill.
        by rewrite lookup_path_app, Hd. }
    rewrite Hd0 in Hinst.
    pose proof (install_skills_total SKILLS source SKILLS_NoDup Huniq present)
      as Hdone.
    rewrite Hinst in Hdone. apply Hdone. intros skill src Hin Hsrc.
    rewrite <- Hchild. by apply Hok.
  - intros Hnone [d Hd].
    destruct Hinv as [(_ & _ & Hd' & _)|(root1 & dest' & _ & H0 & H1 & Hinst & ->)];
      [congruence|].
    rewrite H0 in * by eauto. rewrite Hd in *. unfold install in Hinst.
    rewrite (install_skills_of_none _ _ _ Hnone) in Hinst.
    injection Hinst as <- <-. split; [|done]. by apply replace_at_same.
  - intros Hdone skill path data Hin Hsrc.
    destruct Hinv as [(_ & Ho & _)|(root1 & dest' & _ & _ & H1 & Hinst & ->)];
      [congruence|].
    rewrite lookup_path_app, (lookup_path_replace_at _ _ _ _ H1).
    unfold install in Hinst.
    destruct (install_skills_sound SKILLS source SKILLS_NoDup Huniq _ _ _ Hinst)
      as [_ Hcopied].
    apply (Hcopied Hdone). by rewrite lookup_path_copied_of, decide_True.
  - intros q data Hafter. destruct (Htouch q data) as [_ Honly].
    destruct (Honly Hafter) as [?|(q' & -> & Hq')]; [by left|right].
    destruct q' as [|skill path]; [done|]. unfold copied in Hq'.
    rewrite lookup_path_copied_of in Hq'. case_decide; [|done].
    by exists skill, path.
  - intros q data Hbefore Hnone. destruct (Htouch q data) as [Hframe _].
    apply Hframe; [done|]. intros q' x -> Hq'.
    destruct q' as [|skill path]; [done|]. unfold copied in Hq'.
    rewrite lookup_path_copied_of in Hq'. case_decide; [|done].
    by apply (Hnone skill path x).
  - destruct Hinv as [(-> & _)|(root1 & dest' & Hmk & H0 & H1 & Hinst & ->)];
      [apply kept_refl|].
    apply kept_trans with root1.
    + destruct (lookup_path skillsDir root) as [d|] eqn:Hd.
      * rewrite H0 by eauto. apply kept_refl.
      * by eapply kept_mkdir_p, Hmk.
    + eapply kept_replace_at; [exact H1|].
      unfold install in Hinst. by eapply install_skills_kept.
Qed.


Lemma install_is_additive_witness :
  exists root' o,
    Installer.install ["home"; "u"; ".config"; "codex"; "skills"] demo_source
      (Installer.plain demo_root) = (Installer.plain root', o) /\
    ((forall q x, q `prefix_of` ["home"; "u"; ".config"; "codex"; "skills"] ->
        lookup_path q demo_root ≠ Some (File x)) ->
     exists entries,
       lookup_path ["home"; "u"; ".config"; "codex"; "skills"] root'
         = Some (Dir entries)) /\
    (installable ["home"; "u"; ".config"; "codex"; "skills"] demo_source
       demo_root -> o = Done) /\
    ((forall skill, skill ∈ SKILLS -> child skill demo_source = None) ->
     is_Some (lookup_path ["home"; "u"; ".config"; "codex"; "skills"] demo_root) ->
     root' = demo_root /\ o = Done) /\
    (o = Done ->
     forall skill path data,
       skill ∈ SKILLS ->
       lookup_path (skill :: path) (Dir demo_source) = Some (File data) ->
       lookup_path (["home"; "u"; ".config"; "codex"; "skills"] ++ skill :: path)
         root' = Some (File data)) /\
    (forall q data,
       lookup_path q root' = Some (File data) ->
       lookup_path q demo_root = Some (File data) \/
       exists skill path,
         q = (["home"; "u"; ".config"; "codex"; "skills"] ++ skill :: path)%list /\
         skill ∈ SKILLS /\
         lookup_path (skill :: path) (Dir demo_source) = Some (File data)) /\
    (forall q data,
       lookup_path q demo_root = Some (File data) ->
       (forall skill path x,
          q = (["home"; "u"; ".config"; "codex"; "skills"] ++ skill :: path)%list ->
          skill ∈ SKILLS ->
          lookup_path (skill :: path) (Dir demo_source) ≠ Some (File x)) ->
       lookup_path q root' = Some (File data)) /\
    (forall q n,
       lookup_path q demo_root = Some n ->
       exists n', lookup_path q root' = Some n' /\ is_dir n' = is_dir n).
Proof.
  apply (install_is_additive ["home"; "u"; ".config"; "codex"; "skills"]
           demo_source demo_root).
  simpl. repeat split; repeat (constructor; [set_solver|]); constructor.
Defined.


(** ** More on the installers *)

(** X12: [getCodexSkillsDir] always answers with one of its three
    candidates: the first in the list that exists, every candidate before
    it being absent, and the first candidate, [~/.codex/skills], when none
    exists. *)
Theorem getCodexSkillsDir_choice root home :
  exists before after,
    Installer.codex_candidates home
      = (before ++ Installer.getCodexSkillsDir root home :: after)%list /\
    Forall (fun c => Installer.existsSync root c = false) before /\
    (Installer.existsSync root (Installer.getCodexSkillsDir root home) = true \/
     before = [] /\
     Installer.getCodexSkillsDir root home = (home ++ [".codex"; "skills"])%list /\
     Forall (fun c => Installer.existsSync root c = false)
       (Installer.codex_candidates home)).
Proof.
  unfold Installer.getCodexSkillsDir.
  destruct (List.find (Installer.existsSync root) (Installer.codex_candidates home))
    as [dir|] eqn:Hfind.
  - apply find_first in Hfind as (l1 & l2 & Heq & Hdir & Hall).
    exists l1, l2. split; [done|]. split; [done|]. by left.
  - apply find_nothing in Hfind.
    exists [], (tl (Installer.codex_candidates home)).
    split; [done|]. split; [constructor|]. right. by repeat split.
Qed.

(** X13: installing again changes nothing: on a file system without
    links, after an install that ended normally, a second install from the
    same source ends normally and leaves the file system exactly as the
    first left it. *)
Theorem install_again skillsDir source root root1 :
  names_unique (Dir source) ->
  Installer.install skillsDir source (Installer.plain root) = (root1, Done) ->
  Installer.install skillsDir source root1 = (root1, Done).
Proof.
  intros Huniq. rewrite install_plain.
  destruct (install_at skillsDir source root) as [root' o] eqn:Hrun.
  intros [= <- ->]. rewrite install_plain.
  by rewrite (install_at_again _ _ _ _ Huniq Hrun).
Qed.

Lemma install_again_witness :
  Installer.install ["home"; "u"; ".config"; "codex"; "skills"] demo_source
    (Installer.plain
       (install_at ["home"; "u"; ".config"; "codex"; "skills"] demo_source
          demo_root).1)
  = (Installer.plain
       (install_at ["home"; "u"; ".config"; "codex"; "skills"] demo_source
          demo_root).1, Done).
Proof.
  apply (install_again ["home"; "u"; ".config"; "codex"; "skills"] demo_source
           demo_root).
  - simpl. repeat split; repeat (constructor; [set_solver|]); constructor.
  - vm_compute. reflexivity.
Defined.

(** X14: when the skills path holds a plain file, the install leaves the
    file system as it is: it throws at the first skill it finds at the
    source, and ends normally only when the source has none of the six
    skills. *)
Theorem install_on_file skillsDir source root data :
  lookup_path skillsDir root = Some (File data) ->
  Installer.install skillsDir source (Installer.plain root) =
    (Installer.plain root,
     match copied_of SKILLS source with [] => Done | _ => Thrown end).
Proof.
  intros Hd. by rewrite install_plain, (install_at_on_file _ _ _ _ Hd).
Qed.

Lemma install_on_file_witness :
  Installer.install ["home"; "u"; ".bashrc"] demo_source
    (Installer.plain demo_root) =
    (Installer.plain demo_root,
     match copied_of SKILLS demo_source with [] => Done | _ => Thrown end).
Proof.
  apply (install_on_file ["home"; "u"; ".bashrc"] demo_source demo_root "rc").
  reflexivity.
Defined.

(** X16: when a plain file lies on the way to the skills directory, the
    directory cannot be created: the install throws before anything is
    copied and the file system is left as it was. *)
Theorem install_file_on_the_way q r x source root :
  lookup_path q root = Some (File x) ->
  r ≠ [] ->
  Installer.install (q ++ r) source (Installer.plain root)
  = (Installer.plain root, Thrown).
Proof.
  intros Hq Hr.
  by rewrite install_plain, (install_at_file_on_the_way _ _ _ _ _ Hq Hr).
Qed.

Lemma install_file_on_the_way_witness :
  Installer.install (["home"; "u"; ".bashrc"] ++ ["skills"]) demo_source
    (Installer.plain demo_root)
  = (Installer.plain demo_root, Thrown).
Proof.
  apply (install_file_on_the_way ["home"; "u"; ".bashrc"] ["skills"] "rc").
  - reflexivity.
  - done.
Defined.

(** ** install-codex.js as a whole *)

Lemma existsSync_plain_false root path :
  lookup_path path root = None ->
  Installer.existsSync (Installer.plain root) path = false.
Proof.
  intros Hnone. rewrite existsSync_plain. unfold existsSync. rewrite Hnone.
  apply bool_decide_eq_false. by intros [? ?].
Qed.

Lemma existsSync_plain_true root path :
  is_Some (lookup_path path root) ->
  Installer.existsSync (Installer.plain root) path = true.
Proof.
  intros Hsome. rewrite existsSync_plain. by apply bool_decide_eq_true.
Qed.

(** X18: when [~/.codex/skills] does not exist and [~/.config/codex/skills]
    does, install-codex.js installs into the latter, and leaves [~/.codex]
    as it was: it is not created. *)
Theorem install_codex_existing_dir home source root :
  lookup_path (home ++ [".codex"; "skills"]) root = None ->
  is_Some (lookup_path (home ++ [".config"; "codex"; "skills"]) root) ->
  exists root' o,
    Installer.install_codex home source (Installer.plain root)
      = (Installer.plain root', o) /\
    Installer.install (home ++ [".config"; "codex"; "skills"]) source
      (Installer.plain root) = (Installer.plain root', o) /\
    lookup_path (home ++ [".codex"]) root' = lookup_path (home ++ [".codex"]) root.
Proof.
  intros Hfirst Hsecond.
  assert (Installer.getCodexSkillsDir (Installer.plain root) home
          = (home ++ [".config"; "codex"; "skills"])%list) as Hdir.
  { unfold Installer.getCodexSkillsDir, Installer.codex_candidates.
    cbn [List.find].
    by rewrite (existsSync_plain_false _ _ Hfirst),
               (existsSync_plain_true _ _ Hsecond). }
  unfold Installer.install_codex. rewrite Hdir, install_plain.
  destruct (install_at (home ++ [".config"; "codex"; "skills"]) source root)
    as [root' o] eqn:Hrun.
  exists root', o. split; [done|]. split; [done|].
  destruct Hsecond as [d Hd].
  apply install_at_inv in Hrun
    as [(_ & _ & Hnone & _)|(root1 & dest' & _ & H0 & _ & _ & ->)];
    [congruence|].
  rewrite H0 by eauto.
  apply (lookup_path_replace_unrelated home ".config" ".codex"
           ["codex"; "skills"] []).
  done.
Qed.

Lemma install_codex_existing_dir_witness :
  exists root' o,
    Installer.install_codex ["home"; "u"] demo_source (Installer.plain demo_root)
      = (Installer.plain root', o) /\
    Installer.install (["home"; "u"] ++ [".config"; "codex"; "skills"])
      demo_source (Installer.plain demo_root) = (Installer.plain root', o) /\
    lookup_path (["home"; "u"] ++ [".codex"]) root'
    = lookup_path (["home"; "u"] ++ [".codex"]) demo_root.
Proof.
  apply (install_codex_existing_dir ["home"; "u"] demo_source demo_root).
  - reflexivity.
  - by eexists.
Defined.

(** X19: when none of the three candidates exists, install-codex.js
    installs into [~/.codex/skills], and creates it unless a plain file
    lies on the way: afterwards it is a directory. *)
Theorem install_codex_default_dir home source root :
  Forall (fun c => lookup_path c root = None) (Installer.codex_candidates home) ->
  (forall q x, q `prefix_of` (home ++ [".codex"; "skills"])%list ->
     lookup_path q root ≠ Some (File x)) ->
  exists root' o entries,
    Installer.install_codex home source (Installer.plain root)
      = (Installer.plain root', o) /\
    Installer.install (home ++ [".codex"; "skills"]) source
      (Installer.plain root) = (Installer.plain root', o) /\
    lookup_path (home ++ [".codex"; "skills"]) root' = Some (Dir entries).
Proof.
  intros Hnone Hfree.
  assert (Installer.getCodexSkillsDir (Installer.plain root) home
          = (home ++ [".codex"; "skills"])%list) as Hdir.
  { unfold Installer.getCodexSkillsDir.
    assert (List.find (Installer.existsSync (Installer.plain root))
              (Installer.codex_candidates home) = None) as ->; [|done].
    induction (Installer.codex_candidates home) as [|c l IH]; [done|].
    apply Forall_cons in Hnone as [Hc Hl]. simpl.
    by rewrite (existsSync_plain_false _ _ Hc), IH. }
  unfold Installer.install_codex. rewrite Hdir, install_plain.
  destruct (install_at_creates _ source root Hfree) as [entries He].
  destruct (install_at (home ++ [".codex"; "skills"]) source root)
    as [root' o] eqn:Hrun.
  by exists root', o, entries.
Qed.

Lemma install_codex_default_dir_witness :
  exists root' o entries,
    Installer.install_codex ["home"; "v"] demo_source (Installer.plain demo_root)
      = (Installer.plain root', o) /\
    Installer.install (["home"; "v"] ++ [".codex"; "skills"]) demo_source
      (Installer.plain demo_root) = (Installer.plain root', o) /\
    lookup_path (["home"; "v"] ++ [".codex"; "skills"]) root'
    = Some (Dir entries).
Proof.
  apply (install_codex_default_dir ["home"; "v"] demo_source demo_root).
  - repeat (constructor; [reflexivity|]). constructor.
  - intros q x [r Hr]. simpl in Hr.
    destruct q as [|a q]; [done|]. injection Hr as <- Hr.
    destruct q as [|b q]; [done|]. injection Hr as <- Hr.
    done.
Defined.

(** ** What an install keeps, links included *)

Section Links.
Import Installer.

Lemma same_kind_refl n : same_kind n n.
Proof. by destruct n. Qed.

Lemma same_kind_trans n1 n2 n3 :
  same_kind n1 n2 -> same_kind n2 n3 -> same_kind n1 n3.
Proof. destruct n1, n2, n3; simpl; try done. congruence. Qed.

Lemma preserved_refl root : preserved root root.
Proof. intros path n Hn. exists n. split; [done|apply same_kind_refl]. Qed.

Lemma preserved_trans r1 r2 r3 :
  preserved r1 r2 -> preserved r2 r3 -> preserved r1 r3.
Proof.
  intros H12 H23 path n Hn.
  destruct (H12 path n Hn) as (n2 & Hn2 & Hk2).
  destruct (H23 path n2 Hn2) as (n3 & Hn3 & Hk3).
  exists n3. split; [done|]. by eapply same_kind_trans.
Qed.

Lemma rchild_put_eq name c entries : child name (put name c entries) = Some c.
Proof.
  induction entries as [|[n c'] rest IH]; simpl.
  - by rewrite decide_True.
  - case_decide; simpl; [by rewrite decide_True|by rewrite decide_False].
Qed.

Lemma rchild_put_ne n name c entries :
  n ≠ name -> child n (put name c entries) = child n entries.
Proof.
  intros Hne. induction entries as [|[n' c'] rest IH]; simpl.
  - by rewrite decide_False.
  - case_decide; simpl.
    + subst. by rewrite !decide_False.
    + case_decide; [done|apply IH].
Qed.

(** Storing at a place that holds nothing, or a node of the same kind with
    everything below it kept, preserves the file system. *)
Lemma preserved_store path new root :
  match lookup_path path root with
  | Some old => preserved old new
  | None => True
  end ->
  preserved root (store path new root).
Proof.
  revert root. induction path as [|name rest IH]; intros root; [done|].
  destruct root as [data|entries|target]; try (intros _; apply preserved_refl).
  simpl lookup_path.
  assert (forall c,
    match child name entries with Some old => preserved old c | None => True end ->
    preserved (Dir entries) (Dir (put name c entries))) as Hput.
  { intros c Hc [|x p] n.
    - simpl. intros [= <-]. by eexists.
    - simpl. destruct (decide (x = name)) as [->|Hne].
      + rewrite rchild_put_eq. destruct (child name entries) as [old|]; [|done].
        apply (Hc p n).
      + rewrite rchild_put_ne by done. intros Hn. exists n.
        split; [done|apply same_kind_refl]. }
  destruct rest as [|y rest'].
  - simpl. intros Hold. apply Hput.
    by destruct (child name entries).
  - cbn [store]. destruct (child name entries) as [c|] eqn:Hc;
      [|intros _; apply preserved_refl].
    intros Hold. apply Hput. by apply IH.
Qed.

(** What a path resolves to is where the resolution says. *)
Lemma walk_sound follow root real n path :
  lookup_path real root = Some n ->
  (forall p, match follow p with
             | Found r m => lookup_path r root = Some m
             | Absent r name =>
                 exists entries, lookup_path r root = Some (Dir entries) /\
                                 child name entries = None
             | Unresolved => True
             end) ->
  match walk follow real n path with
  | Found r m => lookup_path r root = Some m
  | Absent r name =>
      exists entries, lookup_path r root = Some (Dir entries) /\
                      child name entries = None
  | Unresolved => True
  end.
Proof.
  intros Hreal Hfollow. revert real n Hreal.
  induction path as [|name rest IH]; intros real n Hreal; [done|].
  simpl. destruct n as [data|entries|target]; try done.
  destruct (child name entries) as [c|] eqn:Hc.
  - assert (lookup_path (real ++ [name]) root = Some c) as Hnext.
    { clear IH Hfollow. revert root Hreal.
      induction real as [|x real IHr]; intros root.
      - simpl. intros [= ->]. by rewrite Hc.
      - simpl. destruct root as [|es|]; try done.
        destruct (child x es); [apply IHr|done]. }
    destruct c as [data|sub|target]; [by apply IH|by apply IH|apply Hfollow].
  - destruct rest; [|done]. by exists entries.
Qed.

Lemma resolve_sound fuel root path :
  match resolve fuel root path with
  | Found r m => lookup_path r root = Some m
  | Absent r name =>
      exists entries, lookup_path r root = Some (Dir entries) /\
                      child name entries = None
  | Unresolved => True
  end.
Proof.
  revert path. induction fuel as [|fuel IH]; intros path; simpl;
    by apply walk_sound.
Qed.

Lemma preserved_copyFileSync data dest root root' :
  copyFileSync data dest root = Some root' -> preserved root root'.
Proof.
  unfold copyFileSync, stat.
  pose proof (resolve_sound MAXSYMLINKS root dest) as Hsound.
  destruct (resolve MAXSYMLINKS root dest) as [real [x|es|t]|parent name|];
    try done; intros [= <-]; apply preserved_store.
  - rewrite Hsound. intros [|y p] n; [|done]. simpl. intros [= <-].
    by eexists.
  - destruct Hsound as (entries & Hp & Hc).
    assert (lookup_path (parent ++ [name]) root = None) as ->; [|done].
    clear -Hp Hc. revert root Hp.
    induction parent as [|x parent IH]; intros root.
    + simpl. intros [= ->]. by rewrite Hc.
    + simpl. destruct root as [|es|]; try done.
      destruct (child x es); [apply IH|done].
Qed.

Lemma preserved_mkdir_from root done rest root' :
  mkdir_from root done rest = Some root' -> preserved root root'.
Proof.
  revert root done. induction rest as [|name rest IH]; intros root done.
  { simpl. intros [= <-]. apply preserved_refl. }
  simpl. unfold stat at 1.
  pose proof (resolve_sound MAXSYMLINKS root done) as Hsound.
  destruct (resolve MAXSYMLINKS root done) as [real [x|entries|t]|parent nm|];
    try done.
  destruct (child name entries) as [c|] eqn:Hc.
  - destruct (stat root (done ++ [name])) as [r [|es|]| |]; try done.
    apply IH.
  - intros Hrun. eapply preserved_trans; [|by eapply IH].
    apply preserved_store.
    assert (lookup_path (real ++ [name]) root = None) as ->; [|done].
    clear -Hsound Hc. revert root Hsound.
    induction real as [|x real IH]; intros root.
    + simpl. intros [= ->]. by rewrite Hc.
    + simpl. destruct root as [|es|]; try done.
      destruct (child x es); [apply IH|done].
Qed.

Lemma preserved_ensure_dir dest root root' :
  ensure_dir dest root = Some root' -> preserved root root'.
Proof.
  unfold ensure_dir, mkdirSync. destruct (existsSync root dest).
  - intros [= <-]. apply preserved_refl.
  - apply preserved_mkdir_from.
Qed.

Lemma preserved_copy_entries entries :
  Forall (fun e => forall dest root root' o,
            copyDir e.2 dest root = (root', o) -> preserved root root') entries ->
  forall dest root root' o,
    copy_entries entries dest root = (root', o) -> preserved root root'.
Proof.
  induction entries as [|[name entry] rest IH]; intros Hall dest root root' o.
  { simpl. intros [= <- <-]. apply preserved_refl. }
  apply Forall_cons in Hall as [Hentry Hall]. specialize (IH Hall).
  simpl. destruct entry as [data|sub].
  - destruct (copyFileSync data _ root) as [root1|] eqn:Hcopy.
    + intros Hrun. eapply preserved_trans; [|by eapply IH].
      by eapply preserved_copyFileSync.
    + intros [= <- <-]. apply preserved_refl.
  - destruct (copyDir (Tree.Dir sub) _ root) as [root1 o1] eqn:Hsub.
    apply Hentry in Hsub. destruct o1.
    + intros Hrun. eapply preserved_trans; [exact Hsub|by eapply IH].
    + by intros [= <- <-].
Qed.

Lemma preserved_copyDir src dest root root' o :
  copyDir src dest root = (root', o) -> preserved root root'.
Proof.
  revert dest root root' o.
  induction src as [data|entries IH] using node_nested_ind;
    intros dest root root' o; rewrite copyDir_unfold;
    destruct (ensure_dir dest root) as [root1|] eqn:Hdir;
    try (intros [= <- <-]; apply preserved_refl).
  - intros [= <- <-]. by eapply preserved_ensure_dir.
  - intros Hrun. eapply preserved_trans; [by eapply preserved_ensure_dir|].
    by eapply preserved_copy_entries.
Qed.

Lemma preserved_install_skills skills skillsDir source root root' o :
  install_skills skills skillsDir source root = (root', o) ->
  preserved root root'.
Proof.
  revert root. induction skills as [|skill rest IH]; intros root.
  { simpl. intros [= <- <-]. apply preserved_refl. }
  simpl. destruct (Tree.child skill source) as [src|]; [|apply IH].
  destruct (copyDir src _ root) as [root1 o1] eqn:Hsub.
  apply preserved_copyDir in Hsub. destruct o1.
  - intros Hrun. eapply preserved_trans; [exact Hsub|by eapply IH].
  - by intros [= <- <-].
Qed.

End Links.

(** X17: on every file system, whatever links it has, an install removes
    nothing and replaces nothing by something of another kind: whatever
    was at a path is still there afterwards, a directory as a directory, a
    file as a file, and a link as a link to the same target (a file is
    written through a link, never put in its place), however the install
    ended. *)
Theorem install_preserves skillsDir source root path n :
  Installer.lookup_path path root = Some n ->
  exists n',
    Installer.lookup_path path (Installer.install skillsDir source root).1
      = Some n' /\
    Installer.same_kind n n'.
Proof.
  intros Hn. unfold Installer.install.
  destruct (Installer.ensure_dir skillsDir root) as [root1|] eqn:Hdir.
  - destruct (Installer.install_skills SKILLS skillsDir source root1)
      as [root' o] eqn:Hrun.
    apply preserved_ensure_dir in Hdir. apply preserved_install_skills in Hrun.
    by apply (preserved_trans _ _ _ Hdir Hrun).
  - simpl. exists n. split; [done|apply same_kind_refl].
Qed.

Lemma install_preserves_witness :
  exists n',
    Installer.lookup_path ["skills"; "paper-code"; "SKILL.md"]
      (Installer.install ["skills"] demo_source Installer.linked_root).1
      = Some n' /\
    Installer.same_kind
      (Installer.Link ["skills"; "paper-code"; "notes.txt"]) n'.
Proof.
  apply (install_preserves ["skills"] demo_source Installer.linked_root
           ["skills"; "paper-code"; "SKILL.md"]).
  reflexivity.
Defined.
